(** * Password-rotation scripts: a shallow embedding and its properties

    The repository holds three Python scripts that change one user's
    password on a fleet of machines:

    - [reset_password_aws_cli.py]: through AWS SSM, instances selected by
      id or by tag;
    - [updates_pass_ip.py]: the same, with selection by private address and
      a check of which instances SSM can reach;
    - [password_update.py]: over SSH, one host after the other.

    The embedding keeps the shape of the scripts.  Calls into boto3 and
    paramiko are calls on an abstract collaborator whose answers are
    arbitrary; every call is recorded in a trace, so that statements about
    what is queried, slept or closed can be read off the trace.  Text
    written to the terminal is left out, apart from the final summary. *)

From Stdlib Require Import ZArith Lia.
From stdpp Require Import base gmap list strings.

Local Open Scope Z_scope.
Local Open Scope nat_scope.

(** ** Python values shared by the three scripts *)

(** [prefix_of p s]: does [s] start with [p]? *)
Fixpoint prefix_of (p s : string) : bool :=
  match p, s with
  | EmptyString, _ => true
  | String a p', String b s' => if decide (a = b) then prefix_of p' s' else false
  | String _ _, EmptyString => false
  end.

(** Python's [needle in haystack] on strings. *)
Fixpoint str_contains (needle haystack : string) : bool :=
  prefix_of needle haystack ||
  match haystack with
  | EmptyString => false
  | String _ rest => str_contains needle rest
  end.

Definition comma : Ascii.ascii := Ascii.ascii_of_nat 44.

(** Python's [s.split(sep)] for a one-character separator. *)
Fixpoint str_split (sep : Ascii.ascii) (s : string) : list string :=
  match s with
  | EmptyString => [EmptyString]
  | String c rest =>
      if decide (c = sep) then EmptyString :: str_split sep rest
      else match str_split sep rest with
           | [] => [String c EmptyString]
           | piece :: pieces => String c piece :: pieces
           end
  end.

(** Python's [s.strip()].  Strings are byte strings here, so the white space
    is the ASCII one: tab to carriage return, the four separators, blank. *)
Definition is_space (c : Ascii.ascii) : bool :=
  let n := Ascii.nat_of_ascii c in
  ((9 <=? n) && (n <=? 13)) || ((28 <=? n) && (n <=? 32)).

Fixpoint lstrip (s : string) : string :=
  match s with
  | EmptyString => EmptyString
  | String c rest => if is_space c then lstrip rest else s
  end.

Fixpoint rstrip (s : string) : string :=
  match s with
  | EmptyString => EmptyString
  | String c rest =>
      match rstrip rest with
      | EmptyString => if is_space c then EmptyString else String c EmptyString
      | rest' => String c rest'
      end
  end.

Definition strip (s : string) : string := rstrip (lstrip s).

(** Python's [s.lower()] on ASCII letters. *)
Definition lower_ascii (c : Ascii.ascii) : Ascii.ascii :=
  let n := Ascii.nat_of_ascii c in
  if (65 <=? n) && (n <=? 90) then Ascii.ascii_of_nat (n + 32) else c.

Fixpoint lower (s : string) : string :=
  match s with
  | EmptyString => EmptyString
  | String c rest => String (lower_ascii c) (lower rest)
  end.

(** [[x.strip() for x in xs if x.strip()]] *)
Definition stripped_nonempty (xs : list string) : list string :=
  strip <$> filter (λ x, strip x ≠ EmptyString) xs.

(** A Python [dict] where the order of insertion is observed
    ([.items()], [.values()]): keys in the order they were first set. *)
Fixpoint dict_set {V} (k : string) (v : V) (d : list (string * V))
    : list (string * V) :=
  match d with
  | [] => [(k, v)]
  | (k', v') :: d' =>
      if decide (k' = k) then (k, v) :: d' else (k', v') :: dict_set k v d'
  end.

(** How a script run ends: it returns, or leaves through [sys.exit(code)]. *)
Inductive outcome (A : Type) : Type :=
  | Returned (a : A)
  | SysExit (code : Z).
Arguments Returned {A} a.
Arguments SysExit {A} code.

(** Exceptions, by class and by their [str(e)].  The scripts tell boto's
    [ClientError] from everything else that derives from [Exception]. *)
Inductive exn : Type :=
  | ClientError (text : string)
  | OtherException (text : string).

Definition str (e : exn) : string :=
  match e with ClientError t | OtherException t => t end.

(** What a call gives back: a value, or a raised exception. *)
Inductive res (A : Type) : Type :=
  | Ok (a : A)
  | Raise (e : exn).
Arguments Ok {A} a.
Arguments Raise {A} e.

(** ** The SSM scripts *)

Module reset_password_aws_cli.

(** The part of [get_command_invocation]'s answer the script reads:
    [result['Status']] and [result.get('StandardErrorContent', ...)]. *)
Record invocation : Type := {
  Status : string;
  StandardErrorContent : option string
}.

(** [boto3.client('ssm')], as far as the scripts use it.  [Chan] is whatever
    state the service keeps; every call may change it. *)
Record ssm_client (Chan : Type) : Type := {
  (** InstanceIds, the command line, Comment; returns the CommandId *)
  send_command : list string → string → string → Chan → res string * Chan;
  (** CommandId, InstanceId *)
  get_command_invocation : string → string → Chan → res invocation * Chan;
  (** the pages [get_paginator('describe_instance_information').paginate()]
      yields, each the InstanceIds of its InstanceInformationList; fetching a
      page may raise *)
  describe_instance_information : Chan → list (res (list string))
}.
Arguments send_command {Chan}.
Arguments get_command_invocation {Chan}.
Arguments describe_instance_information {Chan}.

(** Calls that leave the process, in the order they happen. *)
Inductive event : Type :=
  | EvSendCommand (instance_ids : list string) (command comment : string)
  | EvGetCommandInvocation (command_id instance_id : string)
  | EvDescribeInstanceInformation
  | EvSleep (seconds : nat).

Record world (Chan : Type) : Type := {
  chan : Chan;
  trace : list event
}.
Arguments chan {Chan}.
Arguments trace {Chan}.

(** Computations that read and change the world and may raise. *)
Definition M (Chan A : Type) : Type := world Chan → res A * world Chan.

Definition ret {Chan A} (a : A) : M Chan A := λ w, (Ok a, w).

Definition raise {Chan A} (e : exn) : M Chan A := λ w, (Raise e, w).

Definition bind {Chan A B} (m : M Chan A) (k : A → M Chan B) : M Chan B :=
  λ w, match m w with
       | (Ok a, w') => k a w'
       | (Raise e, w') => (Raise e, w')
       end.

(** [try: body  except ClientError as e: handler(str(e))]; any other
    exception passes through. *)
Definition try_except_ClientError {Chan A}
    (body : M Chan A) (handler : string → M Chan A) : M Chan A :=
  λ w, match body w with
       | (Raise (ClientError text), w') => handler text w'
       | other => other
       end.

#[local] Notation "'let*' x ':=' m 'in' k" := (bind m (λ x, k))
  (at level 10, x pattern, m at level 100, k at level 200, only parsing).
#[local] Notation "'run' m 'in' k" := (bind m (λ _, k))
  (at level 10, m at level 100, k at level 200, only parsing).

(** One entry of [results]: [{"status": ..., "message": ...}]. *)
Record entry : Type := {
  status : string;
  message : string
}.

(** What [update_password] returns: [{"success": False, "message": m}] or
    [{"success": True, "results": r}]. *)
Inductive update_result : Type :=
  | Failure (message : string)
  | Success (results : gmap string entry).

Section Ssm.
Context {Chan : Type} (ssm : ssm_client Chan).

Definition ssm_send_command (instance_ids : list string)
    (command comment : string) : M Chan string :=
  λ w, let '(r, c) := send_command ssm instance_ids command comment (chan w) in
       (r, {| chan := c;
              trace := trace w ++ [EvSendCommand instance_ids command comment] |}).

Definition ssm_get_command_invocation (command_id instance_id : string)
    : M Chan invocation :=
  λ w, let '(r, c) := get_command_invocation ssm command_id instance_id (chan w) in
       (r, {| chan := c;
              trace := trace w ++ [EvGetCommandInvocation command_id instance_id] |}).

Definition sleep (seconds : nat) : M Chan unit :=
  λ w, (Ok (), {| chan := chan w; trace := trace w ++ [EvSleep seconds] |}).

(** [results[instance_id]], a KeyError when the key is missing. *)
Definition getitem (results : gmap string entry) (instance_id : string)
    : M Chan entry :=
  match results !! instance_id with
  | Some e => ret e
  | None => raise (OtherException "KeyError")
  end.

Definition set_status (instance_id s : string) (results : gmap string entry)
    : gmap string entry :=
  alter (λ e, {| status := s; message := message e |}) instance_id results.

Definition set_message (instance_id m : string) (results : gmap string entry)
    : gmap string entry :=
  alter (λ e, {| status := status e; message := m |}) instance_id results.

(** The statuses the loop keeps polling. *)
Definition active (s : string) : bool :=
  bool_decide (s ∈ ["Pending"; "InProgress"]).

(** The body of [for instance_id in instance_ids] (lines 104-129); the
    local state is [results] and [all_complete]. *)
Definition poll_instance (command_id instance_id : string)
    (st : gmap string entry * bool) : M Chan (gmap string entry * bool) :=
  let '(results, all_complete) := st in
  let* e := getitem results instance_id in
  if active (status e) then
    try_except_ClientError
      (let* result := ssm_get_command_invocation command_id instance_id in
       let s := Status result in
       let results := set_status instance_id s results in
       if decide (s = "Success") then
         ret (set_message instance_id "Password updated successfully" results,
              all_complete)
       else if decide (s = "Failed") then
         ret (set_message instance_id
                ("Failed: " +:+ default "Unknown error" (StandardErrorContent result))
                results,
              all_complete)
       else if active s then
         ret (results, false)
       else
         ret (set_message instance_id ("Status: " +:+ s) results, all_complete))
      (λ text,
         if str_contains "InvalidInstanceId" text then
           ret (set_message instance_id
                  "Instance not found or not configured for SSM"
                  (set_status instance_id "Failed" results),
                all_complete)
         else
           ret (set_message instance_id text
                  (set_status instance_id "Error" results),
                all_complete))
  else ret (results, all_complete).

(** The message [poll_instance] leaves for an answer with status [s]. *)
Definition message_for (s : string) (stderr : option string) (old : string) : string :=
  if decide (s = "Success") then "Password updated successfully"
  else if decide (s = "Failed") then "Failed: " +:+ default "Unknown error" stderr
  else if active s then old
  else "Status: " +:+ s.

(** Is [instance_id] one the loop would still poll? *)
Definition still_active (results : gmap string entry) (instance_id : string) : bool :=
  match results !! instance_id with
  | Some e => active (status e)
  | None => false
  end.

(** [for instance_id in instance_ids: ...] *)
Fixpoint for_instances (command_id : string) (instance_ids : list string)
    (st : gmap string entry * bool) : M Chan (gmap string entry * bool) :=
  match instance_ids with
  | [] => ret st
  | instance_id :: rest =>
      let* st' := poll_instance command_id instance_id st in
      for_instances command_id rest st'
  end.

(** One turn of the [while]: sleep, count, reset [all_complete], poll. *)
Definition poll_round (command_id : string) (instance_ids : list string)
    (results : gmap string entry) : M Chan (gmap string entry * bool) :=
  run sleep 10 in
  for_instances command_id instance_ids (results, true).

(** What one round leaves in the trace when it queries [queried]. *)
Definition round_events (command_id : string) (queried : list string) : list event :=
  EvSleep 10 :: (EvGetCommandInvocation command_id <$> queried).

(** [while not all_complete and retries < max_retries] (lines 98-129).
    [remaining] is [max_retries - retries]: the test [retries < max_retries]
    is [remaining ≠ 0], and [retries += 1] takes one off.  Returns the
    locals [results], [all_complete] and [retries] at loop exit. *)
Fixpoint poll_loop (remaining : nat) (command_id : string)
    (instance_ids : list string) (results : gmap string entry)
    (all_complete : bool) (retries : nat)
    : M Chan (gmap string entry * bool * nat) :=
  match remaining with
  | 0 => ret (results, all_complete, retries)
  | S remaining' =>
      if all_complete then ret (results, all_complete, retries)
      else
        let* (results', all_complete') := poll_round command_id instance_ids results in
        poll_loop remaining' command_id instance_ids results' all_complete'
          (retries + 1)
  end.

Definition max_retries : nat := 30.

(** [{"status": "Pending", "message": ""}] *)
Definition pending : entry := {| status := "Pending"; message := "" |}.

(** [results = {}; for instance_id in instance_ids: results[instance_id] =
    {"status": "Pending", "message": ""}] *)
Definition initial_results (instance_ids : list string) : gmap string entry :=
  foldl (λ results instance_id, <[instance_id := pending]> results)
        ∅ instance_ids.

(** The command line handed to the instances. *)
Definition chpasswd_command (username new_password : string) : string :=
  "echo '" +:+ username +:+ ":" +:+ new_password +:+ "' | sudo chpasswd".

(** The polling part of [update_password], from the CommandId on. *)
Definition wait_for_completion (command_id : string)
    (instance_ids : list string) : M Chan (gmap string entry * bool * nat) :=
  poll_loop max_retries command_id instance_ids
    (initial_results instance_ids) false 0.

(** [update_password(instance_ids, username, new_password)]. *)
Definition update_password (instance_ids : list string)
    (username new_password : string) : M Chan update_result :=
  match instance_ids with
  | [] => ret (Failure "No instances provided")
  | _ :: _ =>
      let command := chpasswd_command username new_password in
      try_except_ClientError
        (let* command_id := ssm_send_command instance_ids command
                        ("Update password for user " +:+ username) in
         let* (results, _, _) := wait_for_completion command_id instance_ids in
         ret (Success results))
        (λ text, ret (Failure ("Error sending command: " +:+ text)))
  end.

(** A service whose status queries raise nothing but ClientError. *)
Definition raises_only_ClientError : Prop :=
  ∀ cid i c text c',
    get_command_invocation ssm cid i c ≠ (Raise (OtherException text), c').

End Ssm.

(** The part of an EC2 instance description the scripts read. *)
Record ec2_instance : Type := {
  InstanceId : string;
  State_Name : string;
  PrivateIpAddress : option string;
  Tags : list (string * string)
}.

(** [boto3.client('ec2')]: [describe_instances(Filters=...)] answers with
    the reservations, each a list of instances, or raises.  A filter is its
    Name with its Values. *)
Definition ec2_client : Type :=
  list (string * list string) → res (list (list ec2_instance)).

(** [{'Name': f"tag:{tag['Key']}", 'Values': [tag['Value']]} for tag in tags] *)
Definition tag_filters (tags : list (string * string))
    : list (string * list string) :=
  (λ tag, ("tag:" +:+ tag.1, [tag.2])) <$> tags.

(** The InstanceIds of the running instances, reservation by reservation. *)
Definition running_ids (reservations : list (list ec2_instance)) : list string :=
  InstanceId <$> filter (λ i, State_Name i = "running") (concat reservations).

(** [get_instance_ids(tags=None, instance_ids=None)].  [instance_ids_txt] is
    the file of that name: its lines, or [None] when it does not exist. *)
Definition get_instance_ids (ec2 : ec2_client)
    (instance_ids_txt : option (list string))
    (tags : option (list (string * string)))
    (instance_ids : option (list string)) : res (list string) :=
  match instance_ids with
  | Some (i :: ids) => Ok (i :: ids)
  | _ =>
      match tags with
      | Some (t :: ts) =>
          match ec2 (tag_filters (t :: ts)) with
          | Ok reservations => Ok (running_ids reservations)
          | Raise (ClientError _) => Ok []
          | Raise e => Raise e
          end
      | _ =>
          match instance_ids_txt with
          | Some lines => Ok (stripped_nonempty lines)
          | None => Ok []
          end
      end
  end.

(** What the end of [main] prints: the two counts over the number of
    instances, and the instances listed under "Instances with errors", each
    with its label, status and message. *)
Record summary : Type := {
  success_count : nat;
  total : nat;
  failed : Z;
  errors : list (string * string * string)
}.

(** Lines 222-232 ([updates_pass_ip.py]: 387-397).  [label] is how an
    instance is shown.  [results.items()] is taken in the order of the map's
    keys: the order of the listing is not the script's. *)
Definition summarize (label : string → string) (instance_ids : list string)
    (results : gmap string entry) : summary :=
  let success_count :=
    length (filter (λ item, status item.2 = "Success") (map_to_list results)) in
  let failed := (Z.of_nat (length instance_ids) - Z.of_nat success_count)%Z in
  {| success_count := success_count;
     total := length instance_ids;
     failed := failed;
     errors :=
       if decide (failed > 0)%Z then
         (λ item, (label item.1, status item.2, message item.2)) <$>
           filter (λ item, status item.2 ≠ "Success") (map_to_list results)
       else [] |}.

(** What the user types, prompt by prompt; [tag_pairs] are the key/value
    pairs entered before the empty key. *)
Record answers : Type := {
  choice : string;
  tag_pairs : list (string * string);
  ids_input : string;
  username : string;
  new_password : string;
  confirm_password : string;
  confirm : string
}.

(** Lines 195-232 of [main], once the instances are chosen. *)
Definition change_and_report {Chan} (ssm : ssm_client Chan)
    (label : string → string)
    (username new_password confirm_password confirm : string)
    (instance_ids : list string) : M Chan (outcome summary) :=
  if decide (new_password ≠ confirm_password) then ret (SysExit 1)
  else if decide (lower confirm ≠ "y") then ret (SysExit 0)
  else
    let* result := update_password ssm instance_ids username new_password in
    match result with
    | Failure _ => ret (SysExit 1)
    | Success results => ret (Returned (summarize label instance_ids results))
    end.

(** [main()]. *)
Definition main {Chan} (ssm : ssm_client Chan) (ec2 : ec2_client)
    (instance_ids_txt : option (list string)) (a : answers)
    : M Chan (outcome summary) :=
  let selected : res (outcome (list string)) :=
    if decide (choice a = "1") then
      match instance_ids_txt with
      | Some lines =>
          match stripped_nonempty lines with
          | [] => Ok (SysExit 1)
          | ids => Ok (Returned ids)
          end
      | None => Ok (SysExit 1)
      end
    else if decide (choice a = "2") then
      match tag_pairs a with
      | [] => Ok (SysExit 1)
      | tags =>
          match get_instance_ids ec2 instance_ids_txt (Some tags) None with
          | Ok ids => Ok (Returned ids)
          | Raise e => Raise e
          end
      end
    else if decide (choice a = "3") then
      Ok (Returned (stripped_nonempty (str_split comma (ids_input a))))
    else Ok (SysExit 1) in
  match selected with
  | Raise e => raise e
  | Ok (SysExit code) => ret (SysExit code)
  | Ok (Returned []) => ret (SysExit 1)
  | Ok (Returned instance_ids) =>
      change_and_report ssm id (username a) (new_password a)
        (confirm_password a) (confirm a) instance_ids
  end.

End reset_password_aws_cli.

Module updates_pass_ip.
Import reset_password_aws_cli.

#[local] Notation "'let*' x ':=' m 'in' k" := (bind m (λ x, k))
  (at level 10, x pattern, m at level 100, k at level 200, only parsing).

(** [get_instance_ids_from_ips(private_ips)]: the dictionary from private
    address to InstanceId, in insertion order. *)
Definition get_instance_ids_from_ips (ec2 : ec2_client)
    (private_ips : list string) : res (list (string * string)) :=
  match ec2 [("private-ip-address", private_ips);
             ("instance-state-name", ["running"])] with
  | Ok reservations =>
      Ok (foldl (λ ip_to_instance instance,
                   match PrivateIpAddress instance with
                   | Some private_ip =>
                       if decide (private_ip ≠ EmptyString ∧ private_ip ∈ private_ips)
                       then dict_set private_ip (InstanceId instance) ip_to_instance
                       else ip_to_instance
                   | None => ip_to_instance
                   end)
                [] (concat reservations))
  | Raise (ClientError _) => Ok []
  | Raise e => Raise e
  end.

(** What the user types at the prompts of [get_instance_info] and [main]. *)
Record answers : Type := {
  choice : string;
  tag_pairs : list (string * string);
  ips_input : string;
  ids_input : string;
  proceed : string;
  username : string;
  new_password : string;
  confirm_password : string;
  confirm : string
}.

(** [{instance_id: f"IP: {ip}" for ip, instance_id in ip_to_instance.items()}] *)
Definition ip_labels (ip_to_instance : list (string * string)) : gmap string string :=
  foldl (λ d item, <[item.2 := "IP: " +:+ item.1]> d) ∅ ip_to_instance.

(** [{instance_id: f"ID: {instance_id}" for instance_id in instance_ids}] *)
Definition id_labels (instance_ids : list string) : gmap string string :=
  foldl (λ d instance_id, <[instance_id := "ID: " +:+ instance_id]> d) ∅ instance_ids.

(** Choices 1 and 4, from the list of addresses on. *)
Definition select_by_ips (ec2 : ec2_client) (private_ips : list string)
    : res (outcome (list string * gmap string string)) :=
  match private_ips with
  | [] => Ok (SysExit 1)
  | _ =>
      match get_instance_ids_from_ips ec2 private_ips with
      | Raise e => Raise e
      | Ok [] => Ok (SysExit 1)
      | Ok ip_to_instance =>
          Ok (Returned (snd <$> ip_to_instance, ip_labels ip_to_instance))
      end
  end.

(** The name shown for an instance found by tag: its Name tag or "Unnamed". *)
Definition name_tag (instance : ec2_instance) : string :=
  default "Unnamed" (snd <$> find (λ tag, bool_decide (tag.1 = "Name")) (Tags instance)).

(** Choice 3, the loop over the instances the tags select. *)
Definition select_running (reservations : list (list ec2_instance))
    : list string * gmap string string :=
  foldl (λ '(instance_ids, display_info) instance,
           if decide (State_Name instance = "running") then
             (instance_ids ++ [InstanceId instance],
              <[InstanceId instance :=
                  name_tag instance +:+ " (" +:+
                  default "No IP" (PrivateIpAddress instance) +:+ ")"]> display_info)
           else (instance_ids, display_info))
        ([], ∅) (concat reservations).

(** [get_instance_info()]: the InstanceIds and, per InstanceId, the text
    shown for it.  The two files are given by their lines, [None] when a file
    does not exist. *)
Definition get_instance_info (ec2 : ec2_client)
    (ip_addresses_txt instance_ids_txt : option (list string)) (a : answers)
    : res (outcome (list string * gmap string string)) :=
  let selected :=
    if decide (choice a = "1") then
      match ip_addresses_txt with
      | Some lines => select_by_ips ec2 (stripped_nonempty lines)
      | None => Ok (SysExit 1)
      end
    else if decide (choice a = "2") then
      match instance_ids_txt with
      | Some lines =>
          match stripped_nonempty lines with
          | [] => Ok (SysExit 1)
          | instance_ids => Ok (Returned (instance_ids, id_labels instance_ids))
          end
      | None => Ok (SysExit 1)
      end
    else if decide (choice a = "3") then
      match tag_pairs a with
      | [] => Ok (SysExit 1)
      | tags =>
          match ec2 (tag_filters tags) with
          | Ok reservations => Ok (Returned (select_running reservations))
          | Raise (ClientError _) => Ok (SysExit 1)
          | Raise e => Raise e
          end
      end
    else if decide (choice a = "4") then
      select_by_ips ec2 (stripped_nonempty (str_split comma (ips_input a)))
    else if decide (choice a = "5") then
      match stripped_nonempty (str_split comma (ids_input a)) with
      | [] => Ok (SysExit 1)
      | instance_ids => Ok (Returned (instance_ids, id_labels instance_ids))
      end
    else Ok (SysExit 1) in
  match selected with
  | Ok (Returned ([], _)) => Ok (SysExit 1)
  | other => other
  end.

(** The loop of [verify_ssm_availability] over the pages: the set of listed
    InstanceIds that are among [instance_ids], or the exception that fetching
    a page raised. *)
Fixpoint listed (instance_ids : list string) (pages : list (res (list string)))
    (available_instances : gset string) : res (gset string) :=
  match pages with
  | [] => Ok available_instances
  | Raise e :: _ => Raise e
  | Ok page :: rest =>
      listed instance_ids rest
        (foldl (λ available instance,
                  if decide (instance ∈ instance_ids)
                  then available ∪ {[instance]} else available)
               available_instances page)
  end.

(** [verify_ssm_availability(instance_ids)]: the available and the
    unavailable instances.  [list(available_instances)] is in the order
    [elements] gives. *)
Definition verify_ssm_availability {Chan} (ssm : ssm_client Chan)
    (instance_ids : list string) : M Chan (list string * list string) :=
  λ w,
    let w' := {| chan := chan w;
                 trace := trace w ++ [EvDescribeInstanceInformation] |} in
    match listed instance_ids (describe_instance_information ssm (chan w)) ∅ with
    | Ok available_instances =>
        (Ok (elements available_instances,
             filter (λ i, i ∉ available_instances) instance_ids), w')
    | Raise (ClientError _) => (Ok ([], instance_ids), w')
    | Raise e => (Raise e, w')
    end.

(** [update_password] is the function of [reset_password_aws_cli.py] with a
    progress line printed in each round. *)
Definition update_password {Chan} := @reset_password_aws_cli.update_password Chan.

(** [display_info.get(instance_id, instance_id)] *)
Definition shown (display_info : gmap string string) (instance_id : string) : string :=
  default instance_id (display_info !! instance_id).

(** [main()], the region prompt apart. *)
Definition main {Chan} (ssm : ssm_client Chan) (ec2 : ec2_client)
    (ip_addresses_txt instance_ids_txt : option (list string)) (a : answers)
    : M Chan (outcome summary) :=
  match get_instance_info ec2 ip_addresses_txt instance_ids_txt a with
  | Raise e => raise e
  | Ok (SysExit code) => ret (SysExit code)
  | Ok (Returned (instance_ids, display_info)) =>
      let* (available_instances, unavailable_instances) :=
        verify_ssm_availability ssm instance_ids in
      match available_instances with
      | [] => ret (SysExit 1)
      | _ =>
          if decide (unavailable_instances ≠ [] ∧ lower (proceed a) ≠ "y")
          then ret (SysExit 0)
          else
            change_and_report ssm (shown display_info) (username a)
              (new_password a) (confirm_password a) (confirm a)
              available_instances
      end
  end.

End updates_pass_ip.

(** ** The SSH script *)

Module password_update.

(** A [paramiko.SSHClient], as far as the script uses it.  [Net] is the
    state of the network and of the hosts; [close] does not raise. *)
Record ssh_client (Net : Type) : Type := {
  (** hostname, port, username, password *)
  connect : string → Z → string → string → Net → res unit * Net;
  exec_command : string → Net → res unit * Net;
  (** [stdout.channel.recv_exit_status()] *)
  recv_exit_status : Net → res Z * Net;
  (** [stderr.read().decode()] *)
  read_stderr : Net → res string * Net;
  close : Net → Net
}.
Arguments connect {Net}.
Arguments exec_command {Net}.
Arguments recv_exit_status {Net}.
Arguments read_stderr {Net}.
Arguments close {Net}.

(** Calls on the client made for [hostname], and the pauses of [main]. *)
Inductive event : Type :=
  | EvConnect (hostname : string) (port : Z) (username : string)
  | EvExecCommand (hostname command : string)
  | EvRecvExitStatus (hostname : string)
  | EvReadStderr (hostname : string)
  | EvClose (hostname : string)
  | EvSleep (seconds : nat).

Record world (Net : Type) : Type := {
  net : Net;
  trace : list event
}.
Arguments net {Net}.
Arguments trace {Net}.

Definition M (Net A : Type) : Type := world Net → res A * world Net.

Definition ret {Net A} (a : A) : M Net A := λ w, (Ok a, w).

Definition bind {Net A B} (m : M Net A) (k : A → M Net B) : M Net B :=
  λ w, match m w with
       | (Ok a, w') => k a w'
       | (Raise e, w') => (Raise e, w')
       end.

(** [try: body  except Exception as e: handler(e)  finally: final] *)
Definition try_except_finally {Net A} (body : M Net A) (handler : exn → M Net A)
    (final : world Net → world Net) : M Net A :=
  λ w, let '(r, w') := match body w with
                       | (Raise e, w') => handler e w'
                       | done => done
                       end in
       (r, final w').

(** A call on the client, recorded in the trace. *)
Definition call {Net A} (ev : event) (f : Net → res A * Net) : M Net A :=
  λ w, let '(r, n) := f (net w) in
       (r, {| net := n; trace := trace w ++ [ev] |}).

#[local] Notation "'let*' x ':=' m 'in' k" := (bind m (λ x, k))
  (at level 10, x pattern, m at level 100, k at level 200, only parsing).
#[local] Notation "'run' m 'in' k" := (bind m (λ _, k))
  (at level 10, m at level 100, k at level 200, only parsing).

Section Ssh.
Context {Net : Type} (client : ssh_client Net).

(** [update_password(hostname, port, ssh_username, ssh_password,
    target_username, new_password)]: [(success, message)]. *)
Definition update_password (hostname : string) (port : Z)
    (ssh_username ssh_password target_username new_password : string)
    : M Net (bool * string) :=
  try_except_finally
    (run call (EvConnect hostname port ssh_username)
           (connect client hostname port ssh_username ssh_password) in
     let command :=
       "echo '" +:+ target_username +:+ ":" +:+ new_password +:+ "' | sudo chpasswd" in
     run call (EvExecCommand hostname command) (exec_command client command) in
     let* exit_status :=
       call (EvRecvExitStatus hostname) (recv_exit_status client) in
     if decide (exit_status = 0%Z) then
       ret (true, "Password updated successfully for " +:+ target_username +:+
                  " on " +:+ hostname)
     else
       let* error := call (EvReadStderr hostname) (read_stderr client) in
       ret (false, "Failed to update password on " +:+ hostname +:+ ": " +:+
                   strip error))
    (λ e, ret (false, "Error connecting to " +:+ hostname +:+ ": " +:+ str e))
    (λ w, {| net := close client (net w);
             trace := trace w ++ [EvClose hostname] |}).

Definition sleep (seconds : nat) : M Net unit :=
  λ w, (Ok (), {| net := net w; trace := trace w ++ [EvSleep seconds] |}).

(** The events that open and close a client. *)
Definition opens_or_closes (ev : event) : bool :=
  match ev with
  | EvConnect _ _ _ | EvClose _ => true
  | _ => false
  end.

(** Lines 111-124: [results], one [(hostname, success, message)] per
    server. *)
Fixpoint update_servers (servers : list string) (port : Z)
    (ssh_username ssh_password target_username new_password : string)
    (results : list (string * bool * string))
    : M Net (list (string * bool * string)) :=
  match servers with
  | [] => ret results
  | hostname :: rest =>
      let* (success, message) :=
        update_password hostname port ssh_username ssh_password
          target_username new_password in
      run sleep 1 in
      update_servers rest port ssh_username ssh_password target_username
        new_password (results ++ [(hostname, success, message)])
  end.

(** What the user types; [ssh_port] is what [int(input(...) or 22)] gives,
    [None] when [int] raises. *)
Record answers : Type := {
  ssh_username : string;
  ssh_password : string;
  target_username : string;
  new_password : string;
  confirm_password : string;
  ssh_port : option Z;
  confirm : string
}.

(** The summary printed last: the counts and the servers with errors. *)
Record summary : Type := {
  success_count : nat;
  total : nat;
  failed : Z;
  errors : list (string * string)
}.

Definition summarize (servers : list string)
    (results : list (string * bool * string)) : summary :=
  let success_count := length (filter (λ r, r.1.2 = true) results) in
  let failed := (Z.of_nat (length servers) - Z.of_nat success_count)%Z in
  {| success_count := success_count;
     total := length servers;
     failed := failed;
     errors :=
       if decide (failed > 0)%Z then
         (λ r, (r.1.1, r.2)) <$> filter (λ r, r.1.2 = false) results
       else [] |}.

(** [main()]; [servers_txt] is the file of that name, by its lines. *)
Definition main (servers_txt : option (list string)) (a : answers)
    : M Net (outcome summary) :=
  match servers_txt with
  | None => ret (SysExit 1)
  | Some lines =>
      match stripped_nonempty lines with
      | [] => ret (SysExit 1)
      | servers =>
          if decide (new_password a ≠ confirm_password a) then ret (SysExit 1)
          else
            match ssh_port a with
            | None => λ w, (Raise (OtherException "ValueError"), w)
            | Some port =>
                if decide (lower (confirm a) ≠ "y") then ret (SysExit 0)
                else
                  let* results :=
                    update_servers servers port (ssh_username a) (ssh_password a)
                      (target_username a) (new_password a) [] in
                  ret (Returned (summarize servers results))
            end
      end
  end.

End Ssh.

End password_update.

(** ** Scripted collaborators, to run the scripts on *)

Module scenarios.
Import reset_password_aws_cli.

(** An SSM service that accepts every command under the id "cmd-1" and
    answers the [n]-th status query about [instance_id] (counting from 0) with
    [script instance_id n].  Its state is the list of the instances queried
    so far. *)
Definition scripted (script : string → nat → res invocation)
    (pages : list (res (list string))) : ssm_client (list string) :=
  {| send_command := λ _ _ _ c, (Ok "cmd-1", c);
     get_command_invocation := λ _ instance_id c,
       (script instance_id (length (filter (λ i, i = instance_id) c)),
        instance_id :: c);
     describe_instance_information := λ _, pages |}.

Definition start : world (list string) := {| chan := []; trace := [] |}.

Definition answered (s : string) : res invocation :=
  Ok {| Status := s; StandardErrorContent := None |}.

(** Every query finds the command still running. *)
Definition never_done : ssm_client (list string) :=
  scripted (λ _ _, answered "InProgress") [].

(** The first query about "i-2" fails with a throttling error; from the
    second on it would report success.  The others succeed at once. *)
Definition throttled_once : ssm_client (list string) :=
  scripted (λ instance_id n,
              if decide (instance_id = "i-2" ∧ n = 0)
              then Raise (ClientError "ThrottlingException: Rate exceeded")
              else answered "Success") [].

(** No instance is registered with the service: every query is refused. *)
Definition unregistered : ssm_client (list string) :=
  scripted (λ _ _, Raise (ClientError
    "An error occurred (InvalidInstanceId) when calling the GetCommandInvocation operation"))
    [].

(** The command waits in the queue at every query. *)
Definition queued : ssm_client (list string) :=
  scripted (λ _ _, answered "Pending") [].

(** The command is cancelled on "i-2" and succeeds elsewhere. *)
Definition cancelled_on_i2 : ssm_client (list string) :=
  scripted (λ instance_id _,
              if decide (instance_id = "i-2") then answered "Cancelled"
              else answered "Success") [].

(** The listing of registered instances gives one page, naming "i-1", and
    is refused at the second. *)
Definition listing_denied : ssm_client (list string) :=
  scripted (λ _ _, answered "Success")
    [Ok ["i-1"]; Raise (ClientError "AccessDeniedException")].

(** An EC2 service that knows no instance. *)
Definition no_instances : ec2_client := λ _, Ok [].

(** The user picks choice 5 and types the same id twice. *)
Definition typed_twice : updates_pass_ip.answers :=
  {| updates_pass_ip.choice := "5";
     updates_pass_ip.tag_pairs := [];
     updates_pass_ip.ips_input := "";
     updates_pass_ip.ids_input := "i-1, i-1";
     updates_pass_ip.proceed := "y";
     updates_pass_ip.username := "alice";
     updates_pass_ip.new_password := "secret";
     updates_pass_ip.confirm_password := "secret";
     updates_pass_ip.confirm := "y" |}.

(** The user picks choice 5 and types two ids. *)
Definition typed_two : updates_pass_ip.answers :=
  {| updates_pass_ip.choice := "5";
     updates_pass_ip.tag_pairs := [];
     updates_pass_ip.ips_input := "";
     updates_pass_ip.ids_input := "i-1,i-2";
     updates_pass_ip.proceed := "y";
     updates_pass_ip.username := "alice";
     updates_pass_ip.new_password := "secret";
     updates_pass_ip.confirm_password := "secret";
     updates_pass_ip.confirm := "y" |}.

(** The first query about an instance finds the command running, the
    later ones find it done. *)
Definition slow_start : ssm_client (list string) :=
  scripted (λ _ n, if decide (n = 0) then answered "InProgress"
                   else answered "Success") [].

(** Every query finds the command done. *)
Definition all_done : ssm_client (list string) :=
  scripted (λ _ _, answered "Success") [].

(** An EC2 service that answers every query with the same two
    reservations: a running web server, a stopped batch machine and a running
    database. *)
Definition three_machines : ec2_client :=
  λ _, Ok [[{| InstanceId := "i-1"; State_Name := "running";
               PrivateIpAddress := Some "10.0.0.1";
               Tags := [("Env", "prod"); ("Name", "web")] |};
            {| InstanceId := "i-2"; State_Name := "stopped";
               PrivateIpAddress := None; Tags := [] |}];
           [{| InstanceId := "i-3"; State_Name := "running";
               PrivateIpAddress := Some "10.0.0.3"; Tags := [] |}]].

(** The listing of registered instances comes in two pages. *)
Definition listing_two_pages : ssm_client (list string) :=
  scripted (λ _ _, answered "Success") [Ok ["i-1"; "i-7"]; Ok ["i-3"]].

(** Two instances, the first of which has already succeeded. *)
Definition succeeded : entry :=
  {| status := "Success"; message := "Password updated successfully" |}.

Definition one_done : gmap string entry :=
  {[ "i-1" := succeeded; "i-2" := pending ]}.

(** The status of [instance_id] in what [update_password] returned. *)
Definition final_status (r : res update_result * world (list string))
    (instance_id : string) : option string :=
  match r.1 with
  | Ok (Success results) => status <$> results !! instance_id
  | _ => None
  end.

End scenarios.


(** * Properties *)

Import reset_password_aws_cli.

(** ** Strings *)

Lemma active_iff (s : string) : active s = true ↔ s = "Pending" ∨ s = "InProgress".
Proof.
  unfold active. rewrite bool_decide_eq_true.
  rewrite !elem_of_cons, elem_of_nil. tauto.
Qed.

Lemma active_false_iff (s : string) :
  active s = false ↔ s ≠ "Pending" ∧ s ≠ "InProgress".
Proof.
  rewrite <- not_true_iff_false, active_iff. tauto.
Qed.

(** ** One instance in one round *)

Section poll_instance_facts.
Context {Chan : Type} (ssm : ssm_client Chan).

Lemma alter_as_insert (f : entry → entry) (results : gmap string entry) i e :
  results !! i = Some e → alter f i results = <[i := f e]> results.
Proof.
  intros Hi. apply map_eq. intros j.
  rewrite lookup_alter, lookup_insert.
  destruct (decide (i = j)) as [->|]; [by rewrite Hi | done].
Qed.

Lemma set_status_only (results : gmap string entry) i s e :
  results !! i = Some e →
  set_status i s results = <[i := {| status := s; message := message e |}]> results.
Proof. intros Hi. unfold set_status. by rewrite (alter_as_insert _ _ _ _ Hi). Qed.

Lemma set_both (results : gmap string entry) i s m e :
  results !! i = Some e →
  set_message i m (set_status i s results)
  = <[i := {| status := s; message := m |}]> results.
Proof.
  intros Hi. rewrite (set_status_only _ _ _ _ Hi). unfold set_message.
  erewrite alter_as_insert; [| apply lookup_insert_eq].
  by rewrite insert_insert_eq.
Qed.

(** Everything [poll_instance] can do, case by case. *)
Lemma poll_instance_spec cid i results all_complete w r w' :
  poll_instance ssm cid i (results, all_complete) w = (r, w') →
  (results !! i = None ∧ r = Raise (OtherException "KeyError") ∧ w' = w) ∨
  (∃ e, results !! i = Some e ∧ active (status e) = false ∧
        r = Ok (results, all_complete) ∧ w' = w) ∨
  (∃ e a c, results !! i = Some e ∧ active (status e) = true ∧
      get_command_invocation ssm cid i (chan w) = (a, c) ∧
      w' = {| chan := c; trace := trace w ++ [EvGetCommandInvocation cid i] |} ∧
      match a with
      | Ok inv =>
          r = Ok (<[i := {| status := Status inv;
                            message := message_for (Status inv)
                                         (StandardErrorContent inv) (message e) |}]>
                    results,
                  all_complete && negb (active (Status inv)))
      | Raise (ClientError text) =>
          r = Ok (<[i := if str_contains "InvalidInstanceId" text
                         then {| status := "Failed";
                                 message := "Instance not found or not configured for SSM" |}
                         else {| status := "Error"; message := text |}]> results,
                  all_complete)
      | Raise (OtherException text) => r = Raise (OtherException text)
      end).
Proof.
  unfold poll_instance, bind, getitem.
  destruct (results !! i) as [e|] eqn:Hi; cbn.
  2: { intros [= <- <-]. by left. }
  destruct (active (status e)) eqn:Hact.
  2: { intros [= <- <-]. right; left. by exists e. }
  intros H. right; right.
  unfold try_except_ClientError, bind, ssm_get_command_invocation in H.
  destruct (get_command_invocation ssm cid i (chan w)) as [a c] eqn:Hget.
  exists e, a, c. split_and!; try done.
  - destruct a as [inv|[text|text]]; cbn in H.
    + repeat case_decide; try destruct (active (Status inv)); by inversion H.
    + destruct (str_contains _ text); by inversion H.
    + by inversion H.
  - destruct a as [inv|[text|text]]; cbn in H.
    + unfold message_for.
      destruct (decide (Status inv = "Success")) as [Hs|Hs].
      { injection H as <- _. rewrite (set_both _ _ _ _ _ Hi), Hs.
        by rewrite andb_true_r. }
      destruct (decide (Status inv = "Failed")) as [Hf|Hf].
      { injection H as <- _. rewrite (set_both _ _ _ _ _ Hi), Hf.
        by rewrite andb_true_r. }
      destruct (active (Status inv)) eqn:Ha.
      { injection H as <- _. rewrite (set_status_only _ _ _ _ Hi).
        by rewrite andb_false_r. }
      injection H as <- _. rewrite (set_both _ _ _ _ _ Hi).
      by rewrite andb_true_r.
    + destruct (str_contains _ text); injection H as <- _;
        by rewrite (set_both _ _ _ _ _ Hi).
    + by injection H as <- _.
Qed.

Lemma still_active_insert (results : gmap string entry) i e j :
  still_active (<[i := e]> results) j
  = if decide (i = j) then active (status e) else still_active results j.
Proof. unfold still_active. rewrite lookup_insert. by case_decide. Qed.

(** The same, as the loop around it needs it: what is queried, what may be
    raised, what changes in [results] and in [all_complete]. *)
Lemma poll_instance_step cid i results all_complete w r w' :
  poll_instance ssm cid i (results, all_complete) w = (r, w') →
  ∃ qs, trace w' = trace w ++ (EvGetCommandInvocation cid <$> qs) ∧
    (qs = [] ∨ (qs = [i] ∧ still_active results i = true)) ∧
    (∀ text, r ≠ Raise (ClientError text)) ∧
    ∀ results' all_complete', r = Ok (results', all_complete') →
      dom results' = dom results ∧
      (∀ j, j ≠ i → results' !! j = results !! j) ∧
      (still_active results i = false → results' = results) ∧
      (all_complete' = true →
         all_complete = true ∧ still_active results' i = false) ∧
      (all_complete = true → still_active results' i = false →
         all_complete' = true).
Proof.
  intros H. apply poll_instance_spec in H.
  destruct H as [(Hi & -> & ->) | [(e & Hi & Ha & -> & ->) | H]].
  - exists []. rewrite app_nil_r. split_and!; [done | by left | done | done].
  - exists []. rewrite app_nil_r. split_and!; [done | by left | done |].
    intros ? ? [= <- <-].
    assert (still_active results i = false) by (unfold still_active; by rewrite Hi).
    split_and!; done.
  - destruct H as (e & a & c & Hi & Ha & Hget & -> & Hr).
    assert (Hact : still_active results i = true)
      by (unfold still_active; by rewrite Hi).
    exists [i]. split_and!; [done | by right | |].
    { destruct a as [inv|[text|text]]; subst r; [done | | done].
      intros ?; discriminate. }
    intros results' ac' ->.
    destruct a as [inv|[text|text]]; [| | done].
    + injection Hr as -> ->.
      split_and!.
      * by apply dom_insert_lookup_L.
      * intros j Hj. by rewrite lookup_insert_ne.
      * congruence.
      * rewrite still_active_insert, decide_True by reflexivity; cbn.
        intros [-> Hn]%andb_true_iff. by apply negb_true_iff in Hn.
      * rewrite still_active_insert, decide_True by reflexivity; cbn.
        by intros -> ->.
    + injection Hr as -> ->.
      split_and!.
      * by apply dom_insert_lookup_L.
      * intros j Hj. by rewrite lookup_insert_ne.
      * congruence.
      * intros ->. rewrite still_active_insert, decide_True by reflexivity.
        by destruct (str_contains _ text).
      * done.
Qed.

End poll_instance_facts.

(** ** One round, and the loop *)

Section poll_loop_facts.
Context {Chan : Type} (ssm : ssm_client Chan).

Lemma still_active_ext (r1 r2 : gmap string entry) j :
  r1 !! j = r2 !! j → still_active r1 j = still_active r2 j.
Proof. unfold still_active. by intros ->. Qed.

(** A step leaves alone every instance that is no longer polled. *)
Lemma poll_instance_frozen cid i results all_complete w results' all_complete' w' j :
  poll_instance ssm cid i (results, all_complete) w
    = (Ok (results', all_complete'), w') →
  still_active results j = false → results' !! j = results !! j.
Proof.
  intros H Hj. apply poll_instance_step in H as (_ & _ & _ & _ & H).
  destruct (H _ _ eq_refl) as (_ & Hframe & Hsame & _).
  destruct (decide (j = i)) as [->|Hne]; [by rewrite Hsame | by apply Hframe].
Qed.

Lemma for_instances_spec cid ids : ∀ results all_complete w r w',
  for_instances ssm cid ids (results, all_complete) w = (r, w') →
  ∃ qs, trace w' = trace w ++ (EvGetCommandInvocation cid <$> qs) ∧
    sublist qs ids ∧
    (∀ i, i ∈ qs → still_active results i = true) ∧
    (∀ text, r ≠ Raise (ClientError text)) ∧
    ∀ results' all_complete', r = Ok (results', all_complete') →
      dom results' = dom results ∧
      (∀ j, j ∉ ids → results' !! j = results !! j) ∧
      (∀ j, still_active results j = false → results' !! j = results !! j) ∧
      (all_complete' = true →
         all_complete = true ∧ ∀ i, i ∈ ids → still_active results' i = false) ∧
      (NoDup ids → all_complete = true →
         (∀ i, i ∈ ids → still_active results' i = false) →
         all_complete' = true).
Proof.
  induction ids as [|i rest IH]; intros results ac w r w' H.
  - injection H as <- <-. exists []. rewrite app_nil_r.
    split_and!; [done | done | by intros ? ?%elem_of_nil | done |].
    intros ? ? [= <- <-]. split_and!; try done.
    intros Hac. split; [done | by intros ? ?%elem_of_nil].
  - change (bind (poll_instance ssm cid i (results, ac))
                 (for_instances ssm cid rest) w = (r, w')) in H.
    unfold bind in H.
    destruct (poll_instance ssm cid i (results, ac) w) as [r1 w1] eqn:H1.
    pose proof H1 as Hstep.
    apply poll_instance_step in Hstep as (qs1 & Ht1 & Hq1 & Hce1 & Hok1).
    destruct r1 as [[results1 ac1]|e].
    2: { injection H as <- <-. exists qs1. split_and!.
         - done.
         - destruct Hq1 as [->|[-> _]]; [apply sublist_nil_l |].
           apply sublist_skip, sublist_nil_l.
         - destruct Hq1 as [->|[-> Hq]]; [by intros ? ?%elem_of_nil |].
           by intros ? ->%list_elem_of_singleton.
         - done.
         - done. }
    destruct (Hok1 _ _ eq_refl) as (Hdom1 & Hframe1 & Hsame1 & Hall1 & Hall1').
    apply IH in H as (qs2 & Ht2 & Hsub2 & Hq2 & Hce2 & Hok2).
    assert (Hfrozen1 : ∀ j, still_active results j = false →
                            results1 !! j = results !! j)
      by (intros j; by eapply poll_instance_frozen).
    exists (qs1 ++ qs2). split_and!.
    + by rewrite Ht2, Ht1, fmap_app, app_assoc.
    + destruct Hq1 as [->|[-> _]]; [by apply sublist_cons |].
      by apply sublist_skip.
    + intros j [Hj|Hj]%elem_of_app.
      * destruct Hq1 as [->|[-> Hq]]; [by apply elem_of_nil in Hj |].
        by apply list_elem_of_singleton in Hj as ->.
      * apply Hq2 in Hj. destruct (still_active results j) eqn:Hsa; [done |].
        rewrite (still_active_ext _ _ _ (Hfrozen1 _ Hsa)) in Hj. congruence.
    + done.
    + intros results' ac' ->.
      destruct (Hok2 _ _ eq_refl) as (Hdom2 & Hframe2 & Hfrozen2 & Hall2 & Hall2').
      split_and!.
      * by rewrite Hdom2.
      * intros j Hj. apply not_elem_of_cons in Hj as [Hne Hj].
        by rewrite Hframe2, Hframe1.
      * intros j Hj. rewrite Hfrozen2, Hfrozen1; [done | done |].
        by rewrite (still_active_ext _ _ _ (Hfrozen1 _ Hj)).
      * intros Hac'. destruct (Hall2 Hac') as [Hac1 Hrest].
        destruct (Hall1 Hac1) as [Hac Hi1]. split; [done |].
        intros j [->|Hj]%elem_of_cons; [| by apply Hrest].
        by rewrite (still_active_ext _ _ _ (Hfrozen2 _ Hi1)).
      * intros [Hi Hnd]%NoDup_cons Hac Hquiet.
        apply Hall2'; [done | | intros j Hj; apply Hquiet; by right].
        apply Hall1'; [done |].
        rewrite <- (still_active_ext _ _ _ (Hframe2 _ Hi)).
        apply Hquiet. by left.
Qed.

Lemma quiet_or_active (results : gmap string entry) (ids : list string) :
  (∀ i, i ∈ ids → still_active results i = false) ∨
  (∃ i, i ∈ ids ∧ still_active results i = true).
Proof.
  induction ids as [|i rest [IH|(j & Hj & IH)]].
  - left. by intros ? ?%elem_of_nil.
  - destruct (still_active results i) eqn:Hi.
    + right. exists i. split; [by left | done].
    + left. intros j [->|Hj]%elem_of_cons; [done | by apply IH].
  - right. exists j. split; [by right | done].
Qed.

Lemma poll_round_spec cid ids results w r w' :
  poll_round ssm cid ids results w = (r, w') →
  ∃ qs, trace w' = trace w ++ round_events cid qs ∧
    sublist qs ids ∧
    (∀ i, i ∈ qs → still_active results i = true) ∧
    (∀ text, r ≠ Raise (ClientError text)) ∧
    ∀ results' all_complete', r = Ok (results', all_complete') →
      dom results' = dom results ∧
      (∀ j, j ∉ ids → results' !! j = results !! j) ∧
      (∀ j, still_active results j = false → results' !! j = results !! j) ∧
      (all_complete' = true → ∀ i, i ∈ ids → still_active results' i = false) ∧
      (NoDup ids → all_complete' = false →
         ∃ i, i ∈ ids ∧ still_active results' i = true).
Proof.
  unfold poll_round, bind, sleep. intros H.
  apply for_instances_spec in H as (qs & Ht & Hsub & Hq & Hce & Hok).
  exists qs. cbn in Ht. split_and!; try done.
  { by rewrite Ht, <- app_assoc. }
  intros results' ac' ->.
  destruct (Hok _ _ eq_refl) as (Hdom & Hframe & Hfrozen & Hall & Hall').
  split_and!; try done.
  - intros Hac. by apply Hall.
  - intros Hnd Hac.
    destruct (quiet_or_active results' ids) as [Hquiet|Hactive]; [| done].
    rewrite Hall' in Hac; done.
Qed.

(** The loop: which rounds it runs, and in what state it leaves. *)
Lemma poll_loop_spec cid ids : ∀ remaining results all_complete retries w r w',
  poll_loop ssm remaining cid ids results all_complete retries w = (r, w') →
  ∃ rounds : list (list string),
    trace w' = trace w ++ concat (round_events cid <$> rounds) ∧
    length rounds ≤ remaining ∧
    Forall (λ qs, sublist qs ids ∧
                  ∀ i, i ∈ qs → still_active results i = true) rounds ∧
    (∀ text, r ≠ Raise (ClientError text)) ∧
    ∀ results' all_complete' retries', r = Ok (results', all_complete', retries') →
      retries' = retries + length rounds ∧
      dom results' = dom results ∧
      (∀ j, j ∉ ids → results' !! j = results !! j) ∧
      (∀ j, still_active results j = false → results' !! j = results !! j) ∧
      (length rounds < remaining → all_complete' = true) ∧
      (rounds = [] → results' = results ∧ all_complete' = all_complete) ∧
      (rounds ≠ [] →
         all_complete = false ∧
         (all_complete' = true → ∀ i, i ∈ ids → still_active results' i = false) ∧
         (NoDup ids → all_complete' = false →
            ∃ i, i ∈ ids ∧ still_active results' i = true)).
Proof.
  induction remaining as [|remaining IH]; intros results ac retries w r w' H.
  { injection H as <- <-. exists []. cbn. rewrite app_nil_r.
    split_and!; [done | done | done | done |].
    intros ? ? ? [= <- <- <-]. split_and!; try done; lia. }
  cbn [poll_loop] in H. destruct ac.
  { injection H as <- <-. exists []. cbn. rewrite app_nil_r.
    split_and!; [done | lia | done | done |].
    intros ? ? ? [= <- <- <-]. split_and!; try done; lia. }
  unfold bind in H.
  destruct (poll_round ssm cid ids results w) as [r1 w1] eqn:H1.
  apply poll_round_spec in H1 as (qs & Ht1 & Hsub1 & Hq1 & Hce1 & Hok1).
  destruct r1 as [[results1 ac1]|e].
  2: { injection H as <- <-. exists [qs].
       split_and!; [| cbn; lia | by apply Forall_singleton | | done].
       2: { intros text [= ->]. by eapply Hce1. }
       cbn [fmap list_fmap concat]. by rewrite app_nil_r. }
  destruct (Hok1 _ _ eq_refl) as (Hdom1 & Hframe1 & Hfrozen1 & Hall1 & Hall1').
  apply IH in H as (rounds & Ht & Hlen & Hrounds & Hce & Hok).
  exists (qs :: rounds). split_and!.
  - rewrite Ht, Ht1. cbn [fmap list_fmap concat]. by rewrite <- app_assoc.
  - cbn. lia.
  - apply Forall_cons. split; [done |].
    eapply Forall_impl; [exact Hrounds |]. cbn. intros qs' [Hsub' Hq']. split; [done |].
    intros i Hi. apply Hq' in Hi.
    destruct (still_active results i) eqn:Hsa; [done |].
    rewrite (still_active_ext _ _ _ (Hfrozen1 _ Hsa)) in Hi. congruence.
  - exact Hce.
  - intros results' ac' retries' ->.
    destruct (Hok _ _ _ eq_refl)
      as (Hret & Hdom & Hframe & Hfrozen & Hearly & Hnil & Hcons).
    split_and!.
    + cbn. lia.
    + by rewrite Hdom.
    + intros j Hj. by rewrite Hframe, Hframe1.
    + intros j Hj. rewrite Hfrozen, Hfrozen1; [done | done |].
      by rewrite (still_active_ext _ _ _ (Hfrozen1 _ Hj)).
    + cbn. intros Hlt. apply Hearly. lia.
    + done.
    + intros _. split; [done |].
      destruct rounds as [|qs' rounds'].
      * destruct (Hnil eq_refl) as [-> ->]. split; [done |]. apply Hall1'.
      * destruct Hcons as (_ & ? & ?); done.
Qed.

(** The rounds the loop has run are the loop with a smaller budget. *)
Lemma poll_loop_prefix cid ids k : ∀ remaining results all_complete retries w
    results' all_complete' retries' w',
  poll_loop ssm remaining cid ids results all_complete retries w
    = (Ok (results', all_complete', retries'), w') →
  retries + k < retries' →
  ∃ results_k w_k,
    poll_loop ssm k cid ids results all_complete retries w
      = (Ok (results_k, false, retries + k), w_k).
Proof.
  induction k as [|k IH]; intros remaining results ac retries w results' ac' retries' w' H Hk.
  - exists results, w. cbn. unfold ret. rewrite Nat.add_0_r.
    destruct remaining as [|remaining]; [injection H as -> _ <- _; lia |].
    cbn [poll_loop] in H. destruct ac; [injection H as -> _ <- _; lia | done].
  - destruct remaining as [|remaining]; [injection H as -> _ <- _; lia |].
    cbn [poll_loop] in H |- *.
    destruct ac; [injection H as -> _ <- _; lia |].
    unfold bind in H |- *.
    destruct (poll_round ssm cid ids results w) as [[[results1 ac1]|e] w1]; [| done].
    eapply IH in H as (results_k & w_k & H); [| lia].
    exists results_k, w_k. rewrite H. do 3 f_equal. lia.
Qed.

(** A property of [results] that no single step breaks holds throughout. *)
Lemma for_instances_invariant (P : gmap string entry → Prop) cid ids :
  (∀ j results ac w results' ac' w',
     j ∈ ids → P results →
     poll_instance ssm cid j (results, ac) w = (Ok (results', ac'), w') →
     P results') →
  ∀ results ac w results' ac' w',
    P results →
    for_instances ssm cid ids (results, ac) w = (Ok (results', ac'), w') →
    P results'.
Proof.
  induction ids as [|i rest IH]; intros Hstep results ac w results' ac' w' HP H.
  - by injection H as <- _ _.
  - change (bind (poll_instance ssm cid i (results, ac))
                 (for_instances ssm cid rest) w = (Ok (results', ac'), w')) in H.
    unfold bind in H.
    destruct (poll_instance ssm cid i (results, ac) w)
      as [[[results1 ac1]|e] w1] eqn:H1; [| done].
    eapply IH; [| | exact H].
    + intros j ? ? ? ? ? ? Hj. apply Hstep. by right.
    + eapply Hstep; [by left | exact HP | exact H1].
Qed.

Lemma poll_loop_invariant (P : gmap string entry → Prop) cid ids :
  (∀ j results ac w results' ac' w',
     j ∈ ids → P results →
     poll_instance ssm cid j (results, ac) w = (Ok (results', ac'), w') →
     P results') →
  ∀ remaining results ac retries w results' ac' retries' w',
    P results →
    poll_loop ssm remaining cid ids results ac retries w
      = (Ok (results', ac', retries'), w') →
    P results'.
Proof.
  intros Hstep.
  induction remaining as [|remaining IH];
    intros results ac retries w results' ac' retries' w' HP H.
  - by injection H as <- _ _ _.
  - cbn [poll_loop] in H. destruct ac; [by injection H as <- _ _ _ |].
    unfold poll_round, sleep, bind in H. cbn in H.
    destruct (for_instances ssm cid ids (results, true) _)
      as [[[results1 ac1]|e] w1] eqn:H1; [| done].
    eapply IH; [| exact H].
    eapply for_instances_invariant; [exact Hstep | exact HP | exact H1].
Qed.

End poll_loop_facts.

(** ** [update_password] as a whole *)

Section update_password_facts.
Context {Chan : Type} (ssm : ssm_client Chan).

Lemma initial_results_lookup ids i :
  initial_results ids !! i = if decide (i ∈ ids) then Some pending else None.
Proof.
  unfold initial_results.
  assert (H : ∀ acc : gmap string entry,
            foldl (λ results instance_id, <[instance_id := pending]> results) acc ids !! i
            = if decide (i ∈ ids) then Some pending else acc !! i).
  { induction ids as [|j rest IH]; intros acc; cbn.
    - rewrite decide_False; [done | apply not_elem_of_nil].
    - rewrite IH. destruct (decide (i ∈ rest)) as [Hi|Hi].
      + rewrite decide_True; [done | by right].
      + rewrite lookup_insert. destruct (decide (j = i)) as [->|Hne].
        * rewrite decide_True; [done | by left].
        * rewrite decide_False; [done |].
          intros [->|?]%elem_of_cons; done. }
  rewrite H. by case_decide.
Qed.

Lemma initial_results_active ids i :
  i ∈ ids → still_active (initial_results ids) i = true.
Proof.
  intros Hi. unfold still_active.
  rewrite initial_results_lookup, decide_True; done.
Qed.

Lemma initial_results_dom ids : dom (initial_results ids) = list_to_set ids.
Proof.
  apply set_eq. intros i. rewrite elem_of_dom, initial_results_lookup, elem_of_list_to_set.
  case_decide; split; try done; by intros [? ?].
Qed.

(** What a normal return of [update_password] with results went through. *)
Lemma update_password_success ids u p w results w' :
  update_password ssm ids u p w = (Ok (Success results), w') →
  ids ≠ [] ∧
  ∃ cid c all_complete retries,
    send_command ssm ids (chpasswd_command u p)
      ("Update password for user " +:+ u) (chan w) = (Ok cid, c) ∧
    wait_for_completion ssm cid ids
      {| chan := c;
         trace := trace w ++ [EvSendCommand ids (chpasswd_command u p)
                                ("Update password for user " +:+ u)] |}
      = (Ok (results, all_complete, retries), w').
Proof.
  unfold update_password. destruct ids as [|i ids]; [done |].
  unfold try_except_ClientError, bind, ssm_send_command.
  destruct (send_command ssm _ _ _ _) as [[cid|[text|text]] c]; [| done | done].
  destruct (wait_for_completion ssm cid (i :: ids) _)
    as [[[[results1 ac] retries]|[text|text]] w1] eqn:Hw; [| done | done].
  intros [= <- <-]. split; [done |]. by exists cid, c, ac, retries.
Qed.

(** *** Returning

    The loop can only be left early by an exception that a status query
    raised and that is not a ClientError.  With a service that raises nothing
    else, [update_password] returns the results as soon as the command is
    accepted. *)

Lemma for_instances_returns cid ids : ∀ results all_complete w,
  raises_only_ClientError ssm →
  (∀ i, i ∈ ids → is_Some (results !! i)) →
  ∃ st' w', for_instances ssm cid ids (results, all_complete) w = (Ok st', w').
Proof.
  induction ids as [|i rest IH]; intros results ac w Hssm Hkeys; [by eexists _, _ |].
  change (for_instances ssm cid (i :: rest) (results, ac) w)
    with (bind (poll_instance ssm cid i (results, ac)) (for_instances ssm cid rest) w).
  unfold bind.
  destruct (poll_instance ssm cid i (results, ac) w) as [r w1] eqn:H1.
  pose proof H1 as Hstep. apply poll_instance_step in Hstep as (_ & _ & _ & _ & Hok).
  apply poll_instance_spec in H1
    as [(Hnone & _) | [(e & _ & _ & -> & ->) | (e & a & c & _ & _ & Hget & -> & Hr)]].
  - destruct (Hkeys i) as [e He]; [by left | congruence].
  - apply IH; [done |]. intros j Hj. apply Hkeys. by right.
  - destruct a as [inv|[text|text]]; [| | by apply Hssm in Hget]; subst r.
    + destruct (Hok _ _ eq_refl) as (Hdom & _).
      apply IH; [done |]. intros j Hj. apply elem_of_dom. rewrite Hdom.
      apply elem_of_dom, Hkeys. by right.
    + destruct (Hok _ _ eq_refl) as (Hdom & _).
      apply IH; [done |]. intros j Hj. apply elem_of_dom. rewrite Hdom.
      apply elem_of_dom, Hkeys. by right.
Qed.

Lemma poll_loop_returns cid ids : ∀ remaining results all_complete retries w,
  raises_only_ClientError ssm →
  (∀ i, i ∈ ids → is_Some (results !! i)) →
  ∃ st' w',
    poll_loop ssm remaining cid ids results all_complete retries w = (Ok st', w').
Proof.
  induction remaining as [|remaining IH]; intros results ac retries w Hssm Hkeys;
    [by eexists _, _ |].
  cbn [poll_loop]. destruct ac; [by eexists _, _ |].
  unfold bind.
  destruct (poll_round ssm cid ids results w) as [r w1] eqn:H1.
  pose proof H1 as Hspec.
  apply poll_round_spec in Hspec as (qs & _ & _ & _ & _ & Hok).
  unfold poll_round, bind, sleep in H1.
  destruct (for_instances_returns cid ids results true
              {| chan := chan w; trace := trace w ++ [EvSleep 10] |} Hssm Hkeys)
    as ([results1 ac1] & w1' & Hfor).
  rewrite Hfor in H1. injection H1 as <- <-.
  destruct (Hok _ _ eq_refl) as (Hdom & _).
  apply IH; [done |]. intros j Hj. apply elem_of_dom. rewrite Hdom.
  by apply elem_of_dom, Hkeys.
Qed.

Lemma update_password_returns_results i ids u p w cid c :
  raises_only_ClientError ssm →
  send_command ssm (i :: ids) (chpasswd_command u p)
    ("Update password for user " +:+ u) (chan w) = (Ok cid, c) →
  ∃ results w', update_password ssm (i :: ids) u p w = (Ok (Success results), w').
Proof.
  intros Hssm Hsend.
  unfold update_password, try_except_ClientError, bind, ssm_send_command.
  rewrite Hsend. unfold wait_for_completion.
  edestruct (poll_loop_returns cid (i :: ids) max_retries (initial_results (i :: ids))
               false 0) as ([[results ac] retries] & w' & ->); [done | |].
  - intros j Hj. rewrite initial_results_lookup, decide_True; done.
  - by eexists _, _.
Qed.

End update_password_facts.

(** ** The claims about the SSM scripts *)

Import scenarios.

(** C4.  A target whose recorded status is neither Pending nor InProgress is
    out of the loop for good: from any state of the polling loop on, whatever
    the service answers and however many rounds follow, no round queries it
    (its id is in none of the rounds' queries in the trace), and if the loop
    returns, its entry, status and message, is the one it had. *)
Theorem terminal_target_is_never_polled_again {Chan} (ssm : ssm_client Chan)
    cid ids i e remaining results all_complete retries w r w' :
  status e ≠ "Pending" → status e ≠ "InProgress" →
  results !! i = Some e →
  poll_loop ssm remaining cid ids results all_complete retries w = (r, w') →
  (∃ rounds, trace w' = trace w ++ concat (round_events cid <$> rounds) ∧
             ∀ qs, qs ∈ rounds → i ∉ qs) ∧
  (∀ results' all_complete' retries',
     r = Ok (results', all_complete', retries') → results' !! i = Some e).
Proof.
  intros Hp Hi Hlook H.
  assert (Hq : still_active results i = false).
  { unfold still_active. rewrite Hlook. by apply active_false_iff. }
  apply poll_loop_spec in H as (rounds & Ht & _ & Hrounds & _ & Hok).
  split.
  - exists rounds. split; [done |]. intros qs Hqs Hin.
    rewrite Forall_forall in Hrounds. destruct (Hrounds _ Hqs) as [_ Hact].
    apply Hact in Hin. congruence.
  - intros results' ac' retries' ->.
    destruct (Hok _ _ _ eq_refl) as (_ & _ & _ & Hfrozen & _).
    by rewrite Hfrozen.
Qed.

Lemma terminal_target_is_never_polled_again_witness :
  let out := poll_loop never_done 30 "cmd-1" ["i-1"; "i-2"] one_done false 0 start in
  ("Success" ≠ "Pending" ∧ "Success" ≠ "InProgress" ∧
   one_done !! "i-1" = Some succeeded) ∧
  (∃ rounds, trace out.2 = trace start ++ concat (round_events "cmd-1" <$> rounds) ∧
             ∀ qs, qs ∈ rounds → "i-1" ∉ qs) ∧
  (∀ results' all_complete' retries',
     out.1 = Ok (results', all_complete', retries') →
     results' !! "i-1" = Some succeeded).
Proof.
  intros out. split; [by split_and! |].
  apply (terminal_target_is_never_polled_again never_done "cmd-1" ["i-1"; "i-2"]
           "i-1" succeeded 30 one_done false 0 start out.1 out.2);
    [done | done | done | apply surjective_pairing].
Defined.

(** C6.  The polling loop runs at most [max_retries] = 30 rounds, each
    opened by a sleep of 10 seconds, and nothing else reaches the trace: the
    loop ends within the budget whatever the service answers, also when a
    query raises.  When it returns before the budget is used up, no target is
    Pending or InProgress any more; and, for a batch of distinct targets, it
    has not run a round too many: after each earlier round some target was
    still Pending or InProgress. *)
Theorem polling_stays_within_budget {Chan} (ssm : ssm_client Chan)
    cid ids w r w' :
  wait_for_completion ssm cid ids w = (r, w') →
  max_retries = 30 ∧
  ∃ rounds,
    trace w' = trace w ++ concat (round_events cid <$> rounds) ∧
    length rounds ≤ max_retries ∧
    ∀ results all_complete retries, r = Ok (results, all_complete, retries) →
      retries = length rounds ∧
      (retries < max_retries → ∀ i, i ∈ ids → still_active results i = false) ∧
      (ids ≠ [] → NoDup ids → ∀ k, k < retries →
         ∃ results_k w_k,
           poll_loop ssm k cid ids (initial_results ids) false 0 w
             = (Ok (results_k, false, k), w_k) ∧
           ∃ i, i ∈ ids ∧ still_active results_k i = true).
Proof.
  intros H. split; [done |]. unfold wait_for_completion in H.
  pose proof H as Hspec.
  apply poll_loop_spec in Hspec as (rounds & Ht & Hlen & _ & _ & Hok).
  exists rounds. split_and!; [done | done |].
  intros results ac retries ->.
  destruct (Hok _ _ _ eq_refl) as (Hret & _ & _ & _ & Hearly & Hnil & Hcons).
  cbn in Hret. split_and!; [done | |].
  - intros Hlt. rewrite Hret in Hlt. specialize (Hearly Hlt).
    destruct rounds as [|qs rounds]; [by destruct (Hnil eq_refl) as [_ ?]; subst |].
    destruct Hcons as (_ & Hquiet & _); [done |]. by apply Hquiet.
  - intros Hne Hnd k Hk.
    destruct (poll_loop_prefix ssm cid ids k _ _ _ _ _ _ _ _ _ H)
      as (results_k & w_k & Hpre); [lia |].
    cbn in Hpre. exists results_k, w_k. split; [done |].
    apply poll_loop_spec in Hpre as (rounds_k & _ & _ & _ & _ & Hok_k).
    destruct (Hok_k _ _ _ eq_refl) as (Hret_k & _ & _ & _ & _ & Hnil_k & Hcons_k).
    destruct rounds_k as [|qs rounds_k].
    + destruct (Hnil_k eq_refl) as [-> _].
      destruct ids as [|i ids]; [done |].
      exists i. split; [by left |]. apply initial_results_active. by left.
    + destruct Hcons_k as (_ & _ & Hactive); [done |]. by apply Hactive.
Qed.

Lemma polling_stays_within_budget_witness :
  let out := wait_for_completion throttled_once "cmd-1" ["i-1"; "i-2"; "i-3"] start in
  max_retries = 30 ∧
  ∃ rounds,
    trace out.2 = trace start ++ concat (round_events "cmd-1" <$> rounds) ∧
    length rounds ≤ max_retries ∧
    ∀ results all_complete retries, out.1 = Ok (results, all_complete, retries) →
      retries = length rounds ∧
      (retries < max_retries →
         ∀ i, i ∈ ["i-1"; "i-2"; "i-3"] → still_active results i = false) ∧
      (["i-1"; "i-2"; "i-3"] ≠ [] → NoDup ["i-1"; "i-2"; "i-3"] → ∀ k, k < retries →
         ∃ results_k w_k,
           poll_loop throttled_once k "cmd-1" ["i-1"; "i-2"; "i-3"]
             (initial_results ["i-1"; "i-2"; "i-3"]) false 0 start
             = (Ok (results_k, false, k), w_k) ∧
           ∃ i, i ∈ ["i-1"; "i-2"; "i-3"] ∧ still_active results_k i = true).
Proof.
  intros out.
  apply (polling_stays_within_budget throttled_once "cmd-1" ["i-1"; "i-2"; "i-3"]
           start out.1 out.2).
  apply surjective_pairing.
Defined.

(** Distinctness matters for the last part.  With an id given twice, the
    two queries of the first round can find the command running and then
    done: nothing is left to poll, but [all_complete] was set to [False], and
    a second round sleeps and queries nothing. *)
Example repeated_id_costs_an_idle_round :
  let out := update_password slow_start ["i-1"; "i-1"] "alice" "secret" start in
  trace out.2
    = [EvSendCommand ["i-1"; "i-1"] "echo 'alice:secret' | sudo chpasswd"
         "Update password for user alice"]
      ++ round_events "cmd-1" ["i-1"; "i-1"] ++ round_events "cmd-1" [] ∧
  final_status out "i-1" = Some "Success".
Proof. vm_compute. split; reflexivity. Qed.

(** C1, as the spec has it, fails: with a service that finds the command
    still running at every query, all 30 rounds are spent, each querying
    "i-1", and the target is returned as InProgress, not as TimedOut. *)
Lemma exhausted_budget_leaves_InProgress :
  let out := update_password never_done ["i-1"] "alice" "secret" start in
  trace out.2
    = EvSendCommand ["i-1"] "echo 'alice:secret' | sudo chpasswd"
        "Update password for user alice"
      :: concat (replicate 30 (round_events "cmd-1" ["i-1"])) ∧
  final_status out "i-1" = Some "InProgress" ∧
  final_status out "i-1" ≠ Some "TimedOut".
Proof. vm_compute. split_and!; [reflexivity | reflexivity | discriminate]. Qed.

(** C1, amended.  When every status query about a target finds it Pending or
    InProgress, [update_password], if it returns results, has spent all
    [max_retries] rounds and returns that target with a status that is still
    Pending or InProgress: nothing is put in its place when the budget runs
    out. *)
Theorem unfinished_target_keeps_its_status {Chan} (ssm : ssm_client Chan)
    ids u p w results w' i :
  i ∈ ids →
  (∀ cid c, ∃ inv c',
     get_command_invocation ssm cid i c = (Ok inv, c') ∧
     (Status inv = "Pending" ∨ Status inv = "InProgress")) →
  update_password ssm ids u p w = (Ok (Success results), w') →
  (∃ e, results !! i = Some e ∧
        (status e = "Pending" ∨ status e = "InProgress")) ∧
  ∃ cid rounds,
    length rounds = max_retries ∧
    trace w' = trace w
               ++ EvSendCommand ids (chpasswd_command u p)
                    ("Update password for user " +:+ u)
               :: concat (round_events cid <$> rounds).
Proof.
  intros Hi Hchan H.
  apply update_password_success in H as (_ & cid & c & ac & retries & _ & H).
  unfold wait_for_completion in H.
  assert (Hact : still_active results i = true).
  { eapply (poll_loop_invariant ssm (λ r, still_active r i = true));
      [| by apply initial_results_active | exact H].
    intros j r0 ac0 w0 r1 ac1 w1 _ Hr0 Hstep.
    destruct (decide (j = i)) as [->|Hne].
    - apply poll_instance_spec in Hstep
        as [(_ & ? & _) | [(e & He & Hq & _) | (e & a & c0 & He & _ & Hget & _ & Hr)]];
        [done | | ].
      + unfold still_active in Hr0. rewrite He in Hr0. congruence.
      + destruct (Hchan cid (chan w0)) as (inv & c' & Hget' & Hs).
        rewrite Hget in Hget'. injection Hget' as -> _.
        injection Hr as -> _. rewrite still_active_insert, decide_True by done.
        by apply active_iff.
    - apply poll_instance_step in Hstep as (_ & _ & _ & _ & Hok).
      destruct (Hok _ _ eq_refl) as (_ & Hframe & _).
      by rewrite (still_active_ext _ _ _ (Hframe _ (not_eq_sym Hne))). }
  split.
  - unfold still_active in Hact. destruct (results !! i) as [e|]; [| done].
    exists e. split; [done |]. by apply active_iff.
  - apply poll_loop_spec in H as (rounds & Ht & Hlen & _ & _ & Hok).
    destruct (Hok _ _ _ eq_refl) as (_ & _ & _ & _ & Hearly & Hnil & Hcons).
    exists cid, rounds. split.
    + destruct (decide (length rounds < max_retries)) as [Hlt|]; [| lia].
      specialize (Hearly Hlt). subst ac.
      destruct rounds as [|qs rounds]; [by destruct (Hnil eq_refl) |].
      destruct Hcons as (_ & Hquiet & _); [done |].
      rewrite Hquiet in Hact; done.
    + rewrite Ht. cbn. by rewrite <- app_assoc.
Qed.

Lemma unfinished_target_keeps_its_status_witness :
  let out := update_password never_done ["i-1"; "i-2"] "alice" "secret" start in
  ∃ results,
    out.1 = Ok (Success results) ∧
    (∃ e, results !! "i-2" = Some e ∧
          (status e = "Pending" ∨ status e = "InProgress")) ∧
    ∃ cid rounds,
      length rounds = max_retries ∧
      trace out.2 = trace start
                    ++ EvSendCommand ["i-1"; "i-2"] (chpasswd_command "alice" "secret")
                         ("Update password for user " +:+ "alice")
                    :: concat (round_events cid <$> rounds).
Proof.
  intros out.
  destruct out.1 as [[m|results]|e] eqn:Hout; [by vm_compute in Hout | | by vm_compute in Hout].
  exists results. split; [done |].
  apply (unfinished_target_keeps_its_status never_done ["i-1"; "i-2"]
           "alice" "secret" start results out.2 "i-2").
  - by right; left.
  - intros cid c. eexists _, _. split; [reflexivity | by right].
  - rewrite <- Hout. apply surjective_pairing.
Defined.

(** C2, as the spec has it, fails (Scenario C): the only query about "i-2"
    raises a throttling error, the service would report success at the next
    one, and yet "i-2" is returned as Error after a single round: its status
    did not stay Pending, and no second round asks again. *)
Lemma failed_query_ends_as_Error :
  let out := update_password throttled_once ["i-1"; "i-2"; "i-3"] "alice" "secret" start in
  (get_command_invocation throttled_once "cmd-1" "i-2" ["i-2"]).1 = answered "Success" ∧
  trace out.2
    = [EvSendCommand ["i-1"; "i-2"; "i-3"] "echo 'alice:secret' | sudo chpasswd"
         "Update password for user alice"]
      ++ round_events "cmd-1" ["i-1"; "i-2"; "i-3"] ∧
  final_status out "i-2" = Some "Error" ∧
  final_status out "i-2" ≠ Some "Success".
Proof. vm_compute. split_and!; [reflexivity | reflexivity | reflexivity | discriminate]. Qed.

(** C2, amended.  A status query that raises a ClientError does not abort
    the round: the loop goes on with the remaining targets, [all_complete]
    untouched.  The target's status does change: to Error with the error text
    as message, or to Failed with a fixed message when the text mentions
    InvalidInstanceId.  That entry is final: it is what the round and every
    later round return for the target. *)
Theorem failed_query_is_recorded {Chan} (ssm : ssm_client Chan)
    cid i rest results all_complete w e text c :
  results !! i = Some e →
  status e = "Pending" ∨ status e = "InProgress" →
  get_command_invocation ssm cid i (chan w) = (Raise (ClientError text), c) →
  let e' := if str_contains "InvalidInstanceId" text
            then {| status := "Failed";
                    message := "Instance not found or not configured for SSM" |}
            else {| status := "Error"; message := text |} in
  for_instances ssm cid (i :: rest) (results, all_complete) w
    = for_instances ssm cid rest (<[i := e']> results, all_complete)
        {| chan := c; trace := trace w ++ [EvGetCommandInvocation cid i] |} ∧
  (∀ results' all_complete' w',
     for_instances ssm cid (i :: rest) (results, all_complete) w
       = (Ok (results', all_complete'), w') →
     results' !! i = Some e') ∧
  (∀ ids remaining results1 all_complete1 retries w1 results' all_complete' retries' w',
     results1 !! i = Some e' →
     poll_loop ssm remaining cid ids results1 all_complete1 retries w1
       = (Ok (results', all_complete', retries'), w') →
     results' !! i = Some e').
Proof.
  intros Hi Hact Hget e'.
  assert (Hq : ∀ r : gmap string entry, r !! i = Some e' → still_active r i = false).
  { intros r Hr. unfold still_active. rewrite Hr. subst e'.
    by destruct (str_contains _ text). }
  assert (Hstep : poll_instance ssm cid i (results, all_complete) w
                  = (Ok (<[i := e']> results, all_complete),
                     {| chan := c; trace := trace w ++ [EvGetCommandInvocation cid i] |})).
  { destruct (poll_instance ssm cid i (results, all_complete) w) as [r w'] eqn:H.
    apply poll_instance_spec in H
      as [(? & _) | [(e0 & He0 & Hn & _) | (e0 & a & c0 & He0 & _ & Hget0 & -> & Hr)]].
    - congruence.
    - rewrite Hi in He0. injection He0 as <-. apply active_iff in Hact. congruence.
    - rewrite Hget in Hget0. injection Hget0 as <- <-. by subst r. }
  assert (Hfirst : for_instances ssm cid (i :: rest) (results, all_complete) w
                   = for_instances ssm cid rest (<[i := e']> results, all_complete)
                       {| chan := c;
                          trace := trace w ++ [EvGetCommandInvocation cid i] |}).
  { change (for_instances ssm cid (i :: rest) (results, all_complete) w)
      with (bind (poll_instance ssm cid i (results, all_complete))
                 (for_instances ssm cid rest) w).
    unfold bind. by rewrite Hstep. }
  split_and!; [done | |].
  - intros results' ac' w'. rewrite Hfirst. intros H.
    apply for_instances_spec in H as (_ & _ & _ & _ & _ & Hok).
    destruct (Hok _ _ eq_refl) as (_ & _ & Hfrozen & _).
    rewrite Hfrozen; [apply lookup_insert_eq |]. apply Hq, lookup_insert_eq.
  - intros ids remaining results1 ac1 retries w1 results' ac' retries' w' H1 H.
    apply poll_loop_spec in H as (rounds & _ & _ & _ & _ & Hok).
    destruct (Hok _ _ _ eq_refl) as (_ & _ & _ & Hfrozen & _).
    rewrite Hfrozen; [done | by apply Hq].
Qed.

Lemma failed_query_is_recorded_witness :
  let e' := {| status := "Error"; message := "ThrottlingException: Rate exceeded" |} in
  let results := initial_results ["i-1"; "i-2"; "i-3"] in
  (results !! "i-2" = Some pending ∧
   (get_command_invocation throttled_once "cmd-1" "i-2" (chan start)).1
     = Raise (ClientError "ThrottlingException: Rate exceeded")) ∧
  for_instances throttled_once "cmd-1" ["i-2"; "i-3"] (results, true) start
    = for_instances throttled_once "cmd-1" ["i-3"] (<["i-2" := e']> results, true)
        {| chan := ["i-2"];
           trace := trace start ++ [EvGetCommandInvocation "cmd-1" "i-2"] |} ∧
  (∀ results' all_complete' w',
     for_instances throttled_once "cmd-1" ["i-2"; "i-3"] (results, true) start
       = (Ok (results', all_complete'), w') →
     results' !! "i-2" = Some e') ∧
  (∀ ids remaining results1 all_complete1 retries w1 results' all_complete' retries' w',
     results1 !! "i-2" = Some e' →
     poll_loop throttled_once remaining "cmd-1" ids results1 all_complete1 retries w1
       = (Ok (results', all_complete', retries'), w') →
     results' !! "i-2" = Some e').
Proof.
  intros e' results. split; [by split |].
  apply (failed_query_is_recorded throttled_once "cmd-1" "i-2" ["i-3"] results true
           start pending "ThrottlingException: Rate exceeded" ["i-2"]).
  - reflexivity.
  - by left.
  - reflexivity.
Defined.

(** C3, as the spec has it, fails.  A target unknown to the service (the
    query is refused with InvalidInstanceId) is recorded as Failed, not as
    Error; and a target reported Pending is recorded as Pending, not as
    InProgress. *)
Lemma unknown_target_is_Failed_and_Pending_stays :
  let refused := update_password unregistered ["i-9"] "alice" "secret" start in
  let waiting := update_password queued ["i-1"] "alice" "secret" start in
  (final_status refused "i-9" = Some "Failed" ∧
   final_status refused "i-9" ≠ Some "Error") ∧
  (final_status waiting "i-1" = Some "Pending" ∧
   final_status waiting "i-1" ≠ Some "InProgress").
Proof.
  vm_compute. split; (split; [reflexivity | discriminate]).
Qed.

(** C3, amended.  What the poller records for a polled target, answer by
    answer: Success as Success; Failed as Failed, the message carrying the
    whole of the error output ("Unknown error" when there is none), uncut;
    Pending and InProgress as they come, the message untouched and the round
    marked incomplete; any other status as it comes, with "Status: " and the
    status as message.  A refusal mentioning InvalidInstanceId is recorded as
    Failed with a fixed message, any other ClientError as Error with the
    error text.  Any other exception leaves the function. *)
Theorem recorded_status_for_each_answer {Chan} (ssm : ssm_client Chan)
    cid i results all_complete w e a c :
  results !! i = Some e →
  status e = "Pending" ∨ status e = "InProgress" →
  get_command_invocation ssm cid i (chan w) = (a, c) →
  let w' := {| chan := c; trace := trace w ++ [EvGetCommandInvocation cid i] |} in
  let records s m flag :=
    poll_instance ssm cid i (results, all_complete) w
    = (Ok (<[i := {| status := s; message := m |}]> results, flag), w') in
  match a with
  | Ok inv =>
      (Status inv = "Success" →
         records "Success" "Password updated successfully" all_complete) ∧
      (Status inv = "Failed" →
         records "Failed"
           ("Failed: " +:+ default "Unknown error" (StandardErrorContent inv))
           all_complete) ∧
      (Status inv = "Pending" ∨ Status inv = "InProgress" →
         records (Status inv) (message e) false) ∧
      (Status inv ∉ ["Success"; "Failed"; "Pending"; "InProgress"] →
         records (Status inv) ("Status: " +:+ Status inv) all_complete)
  | Raise (ClientError text) =>
      (str_contains "InvalidInstanceId" text = true →
         records "Failed" "Instance not found or not configured for SSM" all_complete) ∧
      (str_contains "InvalidInstanceId" text = false →
         records "Error" text all_complete)
  | Raise (OtherException text) =>
      poll_instance ssm cid i (results, all_complete) w
      = (Raise (OtherException text), w')
  end.
Proof.
  intros Hi Hact Hget w' records. subst records.
  destruct (poll_instance ssm cid i (results, all_complete) w) as [r w1] eqn:H.
  apply poll_instance_spec in H
    as [(? & _) | [(e0 & He0 & Hn & _) | (e0 & a0 & c0 & He0 & _ & Hget0 & -> & Hr)]].
  - congruence.
  - rewrite Hi in He0. injection He0 as <-. apply active_iff in Hact. congruence.
  - rewrite Hi in He0. injection He0 as <-.
    rewrite Hget in Hget0. injection Hget0 as <- <-.
    destruct a as [inv|[text|text]]; subst r.
    + unfold message_for. split_and!.
      * intros Hs. rewrite Hs, decide_True by done. cbn.
        by rewrite andb_true_r.
      * intros Hs. rewrite Hs, decide_False, decide_True by done. cbn.
        by rewrite andb_true_r.
      * intros Ha. pose proof Ha as Ha'. apply active_iff in Ha'. rewrite Ha'.
        rewrite andb_false_r.
        rewrite !decide_False; [done | |]; destruct Ha as [Hs | Hs]; by rewrite Hs.
      * intros Hs. rewrite !not_elem_of_cons in Hs.
        destruct Hs as (? & ? & ? & ? & _).
        assert (Ha : active (Status inv) = false) by by apply active_false_iff.
        rewrite Ha, andb_true_r. rewrite !decide_False; done.
    + split; intros ->; done.
    + done.
Qed.

Lemma recorded_status_for_each_answer_witness :
  let results := initial_results ["i-9"] in
  (results !! "i-9" = Some pending ∧ status pending = "Pending") ∧
  poll_instance unregistered "cmd-1" "i-9" (results, true) start
  = (Ok (<["i-9" := {| status := "Failed";
                       message := "Instance not found or not configured for SSM" |}]>
           results, true),
     {| chan := ["i-9"];
        trace := trace start ++ [EvGetCommandInvocation "cmd-1" "i-9"] |}).
Proof.
  intros results. split; [by split |].
  pose proof (recorded_status_for_each_answer unregistered "cmd-1" "i-9" results
                true start pending _ ["i-9"] eq_refl (or_introl eq_refl) eq_refl) as H.
  cbv zeta in H. by apply H.
Defined.

(** ** The summary *)

Section summary_facts.

Lemma filter_ext_elem {A} (P Q : A → Prop)
    `{!∀ x, Decision (P x), !∀ x, Decision (Q x)} (l : list A) :
  (∀ x, x ∈ l → P x ↔ Q x) → filter P l = filter Q l.
Proof.
  induction l as [|a l IH]; intros Hext; [done |].
  rewrite !filter_cons. rewrite IH by (intros x Hx; apply Hext; by right).
  destruct (decide (P a)) as [Ha|Ha], (decide (Q a)) as [Hb|Hb]; try done.
  - destruct Hb. apply Hext; [by left | done].
  - destruct Ha. apply Hext; [by left | done].
Qed.

Lemma length_filter_fmap {A B} (f : A → B) (Q : B → Prop)
    `{!∀ y, Decision (Q y)} (l : list A) :
  length (filter (λ x, Q (f x)) l) = length (filter Q (f <$> l)).
Proof.
  induction l as [|a l IH]; [done |].
  cbn [fmap list_fmap]. rewrite !filter_cons.
  destruct (decide (Q (f a))); cbn; by rewrite IH.
Qed.

(** The keys of [results] are the instances, once each. *)
Lemma keys_of_results (results : gmap string entry) (ids : list string) :
  NoDup ids → dom results = list_to_set ids →
  (map_to_list results).*1 ≡ₚ ids.
Proof.
  intros Hnd Hdom. apply NoDup_Permutation; [apply NoDup_fst_map_to_list | done |].
  intros i. rewrite <- (elem_of_list_to_set (C := gset string) i ids), <- Hdom, elem_of_dom.
  rewrite list_elem_of_fmap. split.
  - intros ([j e] & -> & Hin). apply elem_of_map_to_list in Hin. by eexists.
  - intros [e He]. exists (i, e). split; [done |]. by apply elem_of_map_to_list.
Qed.

Lemma success_count_by_instance label (ids : list string) (results : gmap string entry) :
  NoDup ids → dom results = list_to_set ids →
  success_count (summarize label ids results)
  = length (filter (λ i, status <$> results !! i = Some "Success") ids).
Proof.
  intros Hnd Hdom. cbn.
  rewrite (filter_ext_elem _
             (λ item, status <$> results !! item.1 = Some "Success")).
  2: { intros [i e] Hin. apply elem_of_map_to_list in Hin. cbn. rewrite Hin. cbn.
       split; [by intros -> | by intros [= ->]]. }
  pose proof (length_filter_fmap (@fst string entry)
                (λ i, status <$> results !! i = Some "Success")
                (map_to_list results)) as Hf.
  cbn beta in Hf. rewrite Hf.
  by rewrite (keys_of_results _ _ Hnd Hdom).
Qed.

Lemma failed_by_instance label (ids : list string) (results : gmap string entry) :
  NoDup ids → dom results = list_to_set ids →
  failed (summarize label ids results)
  = Z.of_nat (length (filter (λ i, status <$> results !! i ≠ Some "Success") ids)).
Proof.
  intros Hnd Hdom.
  pose proof (success_count_by_instance label ids results Hnd Hdom) as Hs.
  cbn in Hs |- *. rewrite Hs.
  pose proof (filter_app_complement
                (λ i, status <$> results !! i = Some "Success") ids) as Hp.
  apply Permutation_length in Hp. rewrite length_app in Hp. lia.
Qed.

(** An instance that did not succeed is listed, and [failed] is not 0. *)
Lemma not_succeeded_is_listed label (ids : list string)
    (results : gmap string entry) i e :
  dom results = list_to_set ids →
  results !! i = Some e → status e ≠ "Success" →
  (failed (summarize label ids results) > 0)%Z ∧
  (label i, status e, message e) ∈ errors (summarize label ids results).
Proof.
  intros Hdom Hi Hs.
  assert (Hlt : length (filter (λ item : string * entry, status item.2 = "Success")
                         (map_to_list results)) < length ids).
  { eapply Nat.lt_le_trans.
    - apply (length_filter_lt _ _ (i, e)); [by apply elem_of_map_to_list | done].
    - rewrite <- (length_fmap fst). apply submseteq_length, NoDup_submseteq.
      + apply NoDup_fst_map_to_list.
      + intros j ([j' e'] & -> & Hin)%list_elem_of_fmap.
        apply elem_of_map_to_list in Hin. cbn.
        rewrite <- (elem_of_list_to_set (C := gset string) j' ids), <- Hdom.
        by apply elem_of_dom_2 in Hin. }
  cbn. split; [lia |].
  rewrite decide_True by lia.
  apply list_elem_of_fmap. exists (i, e). split; [done |].
  apply list_elem_of_filter. split; [done | by apply elem_of_map_to_list].
Qed.

End summary_facts.

(** What [update_password] returns has one entry per instance. *)
Lemma update_password_dom {Chan} (ssm : ssm_client Chan) ids u p w results w' :
  update_password ssm ids u p w = (Ok (Success results), w') →
  dom results = list_to_set ids.
Proof.
  intros H.
  apply update_password_success in H as (_ & cid & c & ac & retries & _ & H).
  apply poll_loop_spec in H as (rounds & _ & _ & _ & _ & Hok).
  destruct (Hok _ _ _ eq_refl) as (_ & -> & _).
  apply initial_results_dom.
Qed.

(** The instances [verify_ssm_availability] reports as available are
    distinct, whatever the list it was given. *)
Lemma available_instances_NoDup {Chan} (ssm : ssm_client Chan) ids w
    available unavailable w' :
  updates_pass_ip.verify_ssm_availability ssm ids w
    = (Ok (available, unavailable), w') →
  NoDup available.
Proof.
  unfold updates_pass_ip.verify_ssm_availability.
  destruct (updates_pass_ip.listed _ _ _) as [s|[text|text]]; intros [= <- _ _].
  - apply NoDup_elements.
  - apply NoDup_nil_2.
Qed.

(** C5.  In the summary of a completed run, succeeded and failed add up to
    the number of instances the command was sent to.  When these are
    distinct, each is in exactly one of the two counts: in [success_count]
    when its status is Success, in [failed] otherwise, so in particular when
    it is Failed, Error, Unavailable or TimedOut. *)
Theorem every_target_in_one_bucket {Chan} (ssm : ssm_client Chan)
    label ids u p w results w' :
  update_password ssm ids u p w = (Ok (Success results), w') →
  let s := summarize label ids results in
  total s = length ids ∧
  (Z.of_nat (success_count s) + failed s = Z.of_nat (total s))%Z ∧
  (NoDup ids →
     (∀ i, i ∈ ids → is_Some (results !! i)) ∧
     success_count s
       = length (filter (λ i, status <$> results !! i = Some "Success") ids) ∧
     failed s
       = Z.of_nat (length (filter (λ i, status <$> results !! i ≠ Some "Success") ids)) ∧
     (∀ i e, i ∈ ids → results !! i = Some e →
        status e ∈ ["Failed"; "Error"; "Unavailable"; "TimedOut"] →
        i ∈ filter (λ i, status <$> results !! i ≠ Some "Success") ids)).
Proof.
  intros H s. apply update_password_dom in H as Hdom.
  split_and!; [done | cbn; lia |].
  intros Hnd. split_and!.
  - intros i Hi. apply elem_of_dom. rewrite Hdom. by apply elem_of_list_to_set.
  - by apply success_count_by_instance.
  - by apply failed_by_instance.
  - intros i e Hi He Hs. apply list_elem_of_filter. split; [| done].
    rewrite He. cbn. intros [= Heq]. rewrite Heq in Hs.
    rewrite !elem_of_cons, elem_of_nil in Hs.
    destruct Hs as [?|[?|[?|[?|[]]]]]; discriminate.
Qed.

Lemma every_target_in_one_bucket_witness :
  let ids := ["i-1"; "i-2"; "i-3"] in
  let out := update_password throttled_once ids "alice" "secret" start in
  ∃ results,
    out.1 = Ok (Success results) ∧
    let s := summarize id ids results in
    total s = length ids ∧
    (Z.of_nat (success_count s) + failed s = Z.of_nat (total s))%Z ∧
    (NoDup ids →
       (∀ i, i ∈ ids → is_Some (results !! i)) ∧
       success_count s
         = length (filter (λ i, status <$> results !! i = Some "Success") ids) ∧
       failed s
         = Z.of_nat (length (filter (λ i, status <$> results !! i ≠ Some "Success") ids)) ∧
       (∀ i e, i ∈ ids → results !! i = Some e →
          status e ∈ ["Failed"; "Error"; "Unavailable"; "TimedOut"] →
          i ∈ filter (λ i, status <$> results !! i ≠ Some "Success") ids)).
Proof.
  intros ids out.
  destruct out.1 as [[m|results]|e] eqn:Hout;
    [by vm_compute in Hout | | by vm_compute in Hout].
  exists results. split; [done |].
  apply (every_target_in_one_bucket throttled_once id ids "alice" "secret"
           start results out.2).
  rewrite <- Hout. apply surjective_pairing.
Defined.

(** Distinctness matters here too: [reset_password_aws_cli.py] sends to the
    ids as typed, and an id typed twice is one entry of [results] but two in
    the total, so the summary reports one failure and lists no instance. *)
Example repeated_id_is_reported_failed :
  let ids := ["i-1"; "i-1"] in
  let out := update_password all_done ids "alice" "secret" start in
  ∃ results,
    out.1 = Ok (Success results) ∧
    success_count (summarize id ids results) = 1 ∧
    failed (summarize id ids results) = 1%Z ∧
    errors (summarize id ids results) = [].
Proof. eexists. vm_compute. split_and!; reflexivity. Qed.

(** C9.  A raw status other than Pending, InProgress, Success and Failed
    (Cancelled, Delayed, ...) is recorded as it comes, with "Status: " and the
    status as message; the target is then queried in no later round and keeps
    that entry; and the summary has it among the failed: [failed] is not 0
    and the target is listed with that status, and for distinct instances
    [failed] is the number of instances whose status is not Success. *)
Theorem other_status_is_final_and_failed {Chan} (ssm : ssm_client Chan) cid i s :
  s ∉ ["Pending"; "InProgress"; "Success"; "Failed"] →
  let e' := {| status := s; message := "Status: " +:+ s |} in
  (∀ results all_complete w e stderr c,
     results !! i = Some e →
     status e = "Pending" ∨ status e = "InProgress" →
     get_command_invocation ssm cid i (chan w)
       = (Ok {| Status := s; StandardErrorContent := stderr |}, c) →
     poll_instance ssm cid i (results, all_complete) w
       = (Ok (<[i := e']> results, all_complete),
          {| chan := c; trace := trace w ++ [EvGetCommandInvocation cid i] |})) ∧
  (∀ ids remaining results all_complete retries w r w',
     results !! i = Some e' →
     poll_loop ssm remaining cid ids results all_complete retries w = (r, w') →
     (∃ rounds, trace w' = trace w ++ concat (round_events cid <$> rounds) ∧
                ∀ qs, qs ∈ rounds → i ∉ qs) ∧
     (∀ results' all_complete' retries',
        r = Ok (results', all_complete', retries') → results' !! i = Some e')) ∧
  (∀ label ids results,
     dom results = list_to_set ids →
     results !! i = Some e' →
     (failed (summarize label ids results) > 0)%Z ∧
     (label i, s, "Status: " +:+ s) ∈ errors (summarize label ids results) ∧
     (NoDup ids →
        i ∈ filter (λ i, status <$> results !! i ≠ Some "Success") ids ∧
        failed (summarize label ids results)
          = Z.of_nat (length (filter (λ i, status <$> results !! i ≠ Some "Success")
                                ids)))).
Proof.
  intros Hs e'. rewrite !not_elem_of_cons in Hs.
  destruct Hs as (Hp & Hip & Hsucc & Hfail & _).
  assert (Hna : active s = false) by by apply active_false_iff.
  split_and!.
  - intros results ac w e stderr c Hi Hact Hget.
    destruct (poll_instance ssm cid i (results, ac) w) as [r w1] eqn:H.
    apply poll_instance_spec in H
      as [(? & _) | [(e0 & He0 & Hn & _) | (e0 & a0 & c0 & He0 & _ & Hget0 & -> & Hr)]].
    + congruence.
    + rewrite Hi in He0. injection He0 as <-. apply active_iff in Hact. congruence.
    + rewrite Hget in Hget0. injection Hget0 as <- <-. subst r. cbn.
      unfold message_for. rewrite Hna, andb_true_r, !decide_False; done.
  - intros ids remaining results ac retries w r w' Hi H.
    assert (Hq : still_active results i = false)
      by (unfold still_active; by rewrite Hi).
    apply poll_loop_spec in H as (rounds & Ht & _ & Hrounds & _ & Hok).
    split.
    + exists rounds. split; [done |]. intros qs Hqs Hin.
      rewrite Forall_forall in Hrounds. destruct (Hrounds _ Hqs) as [_ Hact].
      apply Hact in Hin. congruence.
    + intros results' ac' retries' ->.
      destruct (Hok _ _ _ eq_refl) as (_ & _ & _ & Hfrozen & _).
      by rewrite Hfrozen.
  - intros label ids results Hdom Hi.
    destruct (not_succeeded_is_listed label ids results i e' Hdom Hi Hsucc) as [Hf Hl].
    split_and!; [done | done |].
    intros Hnd. split; [| by apply failed_by_instance].
    apply list_elem_of_filter. split.
    + rewrite Hi. cbn. by intros [= ?].
    + rewrite <- (elem_of_list_to_set (C := gset string) i ids), <- Hdom.
      by apply elem_of_dom_2 in Hi.
Qed.

Lemma other_status_is_final_and_failed_witness :
  let ids := ["i-1"; "i-2"] in
  let out := update_password cancelled_on_i2 ids "alice" "secret" start in
  let e' := {| status := "Cancelled"; message := "Status: Cancelled" |} in
  ("Cancelled" ∉ ["Pending"; "InProgress"; "Success"; "Failed"]) ∧
  (poll_instance cancelled_on_i2 "cmd-1" "i-2" (initial_results ids, true) start
    = (Ok (<["i-2" := e']> (initial_results ids), true),
       {| chan := ["i-2"];
          trace := trace start ++ [EvGetCommandInvocation "cmd-1" "i-2"] |})) ∧
  ∃ results,
    out.1 = Ok (Success results) ∧
    results !! "i-2" = Some e' ∧
    (failed (summarize id ids results) > 0)%Z ∧
    ("i-2", "Cancelled", "Status: Cancelled") ∈ errors (summarize id ids results).
Proof.
  intros ids out e'.
  assert (Hs : "Cancelled" ∉ ["Pending"; "InProgress"; "Success"; "Failed"]).
  { rewrite !not_elem_of_cons. split_and!; try done. apply not_elem_of_nil. }
  destruct (other_status_is_final_and_failed cancelled_on_i2 "cmd-1" "i-2"
              "Cancelled" Hs) as (Hrecorded & _ & Hsummary).
  split; [done |]. split.
  - apply (Hrecorded (initial_results ids) true start pending None ["i-2"]);
      [reflexivity | by left | reflexivity].
  - destruct out.1 as [[m|results]|e] eqn:Hout;
      [by vm_compute in Hout | | by vm_compute in Hout].
    exists results. split; [done |].
    assert (Hdom : dom results = list_to_set ids).
    { eapply (update_password_dom cancelled_on_i2 ids "alice" "secret" start _ out.2).
      rewrite <- Hout. apply surjective_pairing. }
    assert (Hlook : results !! "i-2" = Some e').
    { vm_compute in Hout. injection Hout as <-. reflexivity. }
    split; [done |].
    destruct (Hsummary id ids results Hdom Hlook) as (Hf & Hl & _). by split.
Defined.

(** ** Availability and selection *)

Lemma listed_raises ids (pages : list (list string)) e rest : ∀ available,
  updates_pass_ip.listed ids ((Ok <$> pages) ++ Raise e :: rest) available = Raise e.
Proof.
  induction pages as [|page pages IH]; intros available; [done |].
  cbn. apply IH.
Qed.

(** C7, as the spec has it, fails: the listing is refused at its second
    page, and the check returns all the same, with no instance available and
    both targets unavailable, "i-1" included, which the first page named. *)
Lemma refused_listing_returns_all_unavailable :
  (updates_pass_ip.verify_ssm_availability listing_denied ["i-1"; "i-2"] start).1
  = Ok ([], ["i-1"; "i-2"]).
Proof. reflexivity. Qed.

(** C7, amended.  When fetching a page of the listing raises a ClientError,
    [verify_ssm_availability] does not fail: it returns no available instance
    and every target as unavailable, whatever the earlier pages named.
    [main] then leaves with exit status 1, having sent no command. *)
Theorem refused_listing_ends_the_run {Chan} (ssm : ssm_client Chan)
    ids w pages text rest :
  describe_instance_information ssm (chan w)
    = (Ok <$> pages) ++ Raise (ClientError text) :: rest →
  let w' := {| chan := chan w;
               trace := trace w ++ [EvDescribeInstanceInformation] |} in
  updates_pass_ip.verify_ssm_availability ssm ids w = (Ok ([], ids), w') ∧
  ∀ ec2 ip_addresses_txt instance_ids_txt a display_info,
    updates_pass_ip.get_instance_info ec2 ip_addresses_txt instance_ids_txt a
      = Ok (Returned (ids, display_info)) →
    updates_pass_ip.main ssm ec2 ip_addresses_txt instance_ids_txt a w
      = (Ok (SysExit 1), w').
Proof.
  intros Hpages w'.
  assert (Hverify : updates_pass_ip.verify_ssm_availability ssm ids w
                    = (Ok ([], ids), w')).
  { unfold updates_pass_ip.verify_ssm_availability.
    by rewrite Hpages, listed_raises. }
  split; [done |].
  intros ec2 f1 f2 a display_info Hinfo.
  unfold updates_pass_ip.main. rewrite Hinfo.
  unfold bind. by rewrite Hverify.
Qed.

Lemma refused_listing_ends_the_run_witness :
  let w' := {| chan := []; trace := [EvDescribeInstanceInformation] |} in
  describe_instance_information listing_denied (chan start)
    = (Ok <$> [["i-1"]]) ++ Raise (ClientError "AccessDeniedException") :: [] ∧
  updates_pass_ip.verify_ssm_availability listing_denied ["i-1"; "i-2"] start
    = (Ok ([], ["i-1"; "i-2"]), w') ∧
  updates_pass_ip.main listing_denied no_instances None None typed_two start
    = (Ok (SysExit 1), w').
Proof.
  intros w'. split; [reflexivity |].
  destruct (refused_listing_ends_the_run listing_denied ["i-1"; "i-2"] start
              [["i-1"]] "AccessDeniedException" [] eq_refl) as [Hverify Hmain].
  split; [exact Hverify |].
  apply (Hmain no_instances None None typed_two (updates_pass_ip.id_labels ["i-1"; "i-2"])).
  vm_compute. reflexivity.
Defined.

Lemma id_labels_lookup ids i :
  updates_pass_ip.id_labels ids !! i
  = if decide (i ∈ ids) then Some ("ID: " +:+ i) else None.
Proof.
  unfold updates_pass_ip.id_labels.
  assert (H : ∀ acc : gmap string string,
            foldl (λ d instance_id, <[instance_id := "ID: " +:+ instance_id]> d) acc ids !! i
            = if decide (i ∈ ids) then Some ("ID: " +:+ i) else acc !! i).
  { induction ids as [|j rest IH]; intros acc; cbn.
    - rewrite decide_False; [done | apply not_elem_of_nil].
    - rewrite IH. destruct (decide (i ∈ rest)) as [Hi|Hi].
      + rewrite decide_True; [done | by right].
      + rewrite lookup_insert. destruct (decide (j = i)) as [->|Hne].
        * rewrite decide_True; [done | by left].
        * rewrite decide_False; [done |].
          intros [->|?]%elem_of_cons; done. }
  rewrite H. by case_decide.
Qed.

(** C8, as the spec has it, fails: an id given twice comes back twice, from
    [get_instance_ids] as from choice 5 of [get_instance_info]. *)
Lemma duplicate_ids_are_kept :
  get_instance_ids no_instances None None (Some ["i-1"; "i-1"])
    = Ok ["i-1"; "i-1"] ∧
  (∃ display_info,
     updates_pass_ip.get_instance_info no_instances None None typed_twice
       = Ok (Returned (["i-1"; "i-1"], display_info))) ∧
  ¬ NoDup ["i-1"; "i-1"].
Proof.
  split_and!.
  - reflexivity.
  - eexists. vm_compute. reflexivity.
  - intros [Hin _]%NoDup_cons. apply Hin. by left.
Qed.

(** C8, amended.  Resolution does not deduplicate the instances: a list of
    ids handed to [get_instance_ids] is returned as it is, and choice 5 of
    [get_instance_info] returns the ids as typed, stripped and without the
    empty ones, in order and with their repetitions.  Only the labels are
    one per id: [display_info] has exactly the distinct ids as keys, each
    shown as "ID: " and the id.  One run resolves selectors of one kind, so no
    label is preferred over another. *)
Theorem resolution_keeps_the_ids_as_given (ec2 : ec2_client)
    ip_addresses_txt instance_ids_txt a ids display_info :
  updates_pass_ip.choice a = "5" →
  updates_pass_ip.get_instance_info ec2 ip_addresses_txt instance_ids_txt a
    = Ok (Returned (ids, display_info)) →
  ids = stripped_nonempty (str_split comma (updates_pass_ip.ids_input a)) ∧
  dom display_info = list_to_set ids ∧
  (∀ i, i ∈ ids → display_info !! i = Some ("ID: " +:+ i)) ∧
  (∀ tags i given,
     get_instance_ids ec2 instance_ids_txt tags (Some (i :: given)) = Ok (i :: given)).
Proof.
  intros Hc H. unfold updates_pass_ip.get_instance_info in H.
  rewrite Hc in H. cbn in H.
  destruct (stripped_nonempty (str_split comma (updates_pass_ip.ids_input a)))
    as [|i given] eqn:Hids; [done |].
  injection H as <- <-.
  change (foldl _ (<[i := _]> ∅) given)
    with (updates_pass_ip.id_labels (i :: given)).
  split_and!; [done | | | done].
  - apply set_eq. intros j.
    rewrite elem_of_dom, id_labels_lookup, elem_of_list_to_set.
    case_decide; split; try done; by intros [? ?].
  - intros j Hj. by rewrite id_labels_lookup, decide_True.
Qed.

Lemma resolution_keeps_the_ids_as_given_witness :
  let ids := ["i-1"; "i-1"] in
  let display_info := updates_pass_ip.id_labels ids in
  updates_pass_ip.choice typed_twice = "5" ∧
  ids = stripped_nonempty (str_split comma (updates_pass_ip.ids_input typed_twice)) ∧
  dom display_info = list_to_set ids ∧
  (∀ i, i ∈ ids → display_info !! i = Some ("ID: " +:+ i)) ∧
  (∀ tags i given,
     get_instance_ids no_instances None tags (Some (i :: given)) = Ok (i :: given)).
Proof.
  intros ids display_info. split; [reflexivity |].
  apply (resolution_keeps_the_ids_as_given no_instances None None typed_twice
           ids display_info).
  - reflexivity.
  - vm_compute. reflexivity.
Defined.

(** ** The SSH script *)

Section ssh_facts.
Import password_update.
Context {Net : Type} (client : ssh_client Net).

(** One host: the call returns a pair, and its last act is to close. *)
Lemma update_password_returns hostname port u pw target new_pw w :
  ∃ success message between n,
    update_password client hostname port u pw target new_pw w
      = (Ok (success, message),
         {| net := close client n;
            trace := trace w ++ EvConnect hostname port u :: between
                             ++ [EvClose hostname] |}) ∧
    Forall (λ ev, opens_or_closes ev = false) between ∧
    (success = true →
       ∃ n1 n2 n3,
         connect client hostname port u pw (net w) = (Ok (), n1) ∧
         exec_command client
           ("echo '" +:+ target +:+ ":" +:+ new_pw +:+ "' | sudo chpasswd") n1
           = (Ok (), n2) ∧
         recv_exit_status client n2 = (Ok 0%Z, n3)).
Proof.
  unfold update_password, try_except_finally, bind, call, ret.
  destruct (connect client hostname port u pw (net w)) as [[[]|e1] n1] eqn:H1; cbn.
  2: { eexists false, _, [], n1. rewrite <- app_assoc. split_and!; [done | done | done]. }
  destruct (exec_command client _ n1) as [[[]|e2] n2] eqn:H2; cbn.
  2: { eexists false, _, [_], n2. rewrite <- !app_assoc.
       split_and!; [done | by repeat constructor | done]. }
  destruct (recv_exit_status client n2) as [[exit_status|e3] n3] eqn:H3; cbn.
  2: { eexists false, _, [_; _], n3. rewrite <- !app_assoc.
       split_and!; [done | by repeat constructor | done]. }
  destruct (decide (exit_status = 0%Z)) as [->|Hne]; cbn.
  { eexists true, _, [_; _], n3. rewrite <- !app_assoc.
    split_and!; [done | by repeat constructor |].
    intros _. by exists n1, n2, n3. }
  destruct (read_stderr client n3) as [[error|e4] n4] eqn:H4; cbn.
  - eexists false, _, [_; _; _], n4. rewrite <- !app_assoc.
    split_and!; [done | by repeat constructor | done].
  - eexists false, _, [_; _; _], n4. rewrite <- !app_assoc.
    split_and!; [done | by repeat constructor | done].
Qed.

End ssh_facts.

(** C10.  [update_password] of the SSH script returns a pair [(success,
    message)] whatever the client does: no exception leaves it.  The client is
    closed at the end of every call (the last event of the call is its close,
    and the network is left as [close] leaves it), and [success] is [True]
    only if connecting, starting the command and reading its exit status all
    went through and the status was 0.  So the loop of [main] gets through
    the whole list: it returns one result per server, in order, having
    connected to and closed each in turn. *)
Theorem ssh_update_never_raises_and_always_closes {Net}
    (client : password_update.ssh_client Net) port u pw target new_pw :
  (∀ hostname w,
     ∃ success message between n,
       password_update.update_password client hostname port u pw target new_pw w
         = (Ok (success, message),
            {| password_update.net := password_update.close client n;
               password_update.trace :=
                 password_update.trace w
                 ++ password_update.EvConnect hostname port u :: between
                 ++ [password_update.EvClose hostname] |}) ∧
       Forall (λ ev, password_update.opens_or_closes ev = false) between ∧
       (success = true →
          ∃ n1 n2 n3,
            password_update.connect client hostname port u pw (password_update.net w)
              = (Ok (), n1) ∧
            password_update.exec_command client
              ("echo '" +:+ target +:+ ":" +:+ new_pw +:+ "' | sudo chpasswd") n1
              = (Ok (), n2) ∧
            password_update.recv_exit_status client n2 = (Ok 0%Z, n3))) ∧
  (∀ servers results0 w,
     ∃ results w',
       password_update.update_servers client servers port u pw target new_pw results0 w
         = (Ok (results0 ++ results), w') ∧
       (λ r, r.1.1) <$> results = servers ∧
       ∃ events,
         password_update.trace w' = password_update.trace w ++ events ∧
         filter (λ ev, password_update.opens_or_closes ev = true) events
         = concat ((λ hostname, [password_update.EvConnect hostname port u;
                                 password_update.EvClose hostname]) <$> servers)).
Proof.
  split; [intros; apply update_password_returns |].
  induction servers as [|hostname servers IH]; intros results0 w.
  - exists [], w. rewrite app_nil_r. split_and!; [done | done |].
    exists []. by rewrite app_nil_r.
  - cbn [password_update.update_servers]. unfold password_update.bind.
    destruct (update_password_returns client hostname port u pw target new_pw w)
      as (success & message & between & n & -> & Hbetween & _).
    cbn.
    destruct (IH (results0 ++ [(hostname, success, message)])
                {| password_update.net := password_update.close client n;
                   password_update.trace :=
                     (password_update.trace w
                      ++ password_update.EvConnect hostname port u :: between
                      ++ [password_update.EvClose hostname])
                     ++ [password_update.EvSleep 1] |})
      as (results & w' & -> & Hnames & events & Ht & Hfilter).
    exists ((hostname, success, message) :: results), w'. split_and!.
    + by rewrite <- app_assoc.
    + cbn. by rewrite Hnames.
    + exists ((password_update.EvConnect hostname port u :: between
               ++ [password_update.EvClose hostname])
              ++ [password_update.EvSleep 1] ++ events).
      split.
      * rewrite Ht. cbn [password_update.trace].
        rewrite <- !app_assoc. reflexivity.
      * rewrite !filter_app, Hfilter. cbn [fmap list_fmap concat].
        rewrite filter_cons_True by done. rewrite filter_app.
        assert (Hnone : filter (λ ev, password_update.opens_or_closes ev = true) between = []).
        { clear -Hbetween. induction Hbetween as [|ev between Hev _ IHb]; [done |].
          rewrite filter_cons_False; [done | by rewrite Hev]. }
        rewrite Hnone. cbn. done.
Qed.

(** * Further properties of the scripts *)

#[local] Set Warnings "-clear-no-such-hyp".

(** ** [update_password] over SSM, on every path *)

Section update_password_paths.
Context {Chan : Type} (ssm : ssm_client Chan).

(** Every way through [update_password], by what [send_command] answers. *)
Lemma update_password_cases ids u p w r w' :
  update_password ssm ids u p w = (r, w') →
  (ids = [] ∧ r = Ok (Failure "No instances provided") ∧ w' = w) ∨
  (ids ≠ [] ∧ ∃ a c,
     send_command ssm ids (chpasswd_command u p)
       ("Update password for user " +:+ u) (chan w) = (a, c) ∧
     let w1 := {| chan := c;
                  trace := trace w ++ [EvSendCommand ids (chpasswd_command u p)
                                         ("Update password for user " +:+ u)] |} in
     match a with
     | Ok cid =>
         ∃ r1, wait_for_completion ssm cid ids w1 = (r1, w') ∧
               match r1 with
               | Ok (results, _, _) => r = Ok (Success results)
               | Raise e => r = Raise e ∧ ∀ text, e ≠ ClientError text
               end
     | Raise (ClientError text) =>
         r = Ok (Failure ("Error sending command: " +:+ text)) ∧ w' = w1
     | Raise (OtherException text) =>
         r = Raise (OtherException text) ∧ w' = w1
     end).
Proof.
  unfold update_password. destruct ids as [|i ids].
  { intros [= <- <-]. by left. }
  intros H. right. split; [done |].
  unfold try_except_ClientError, bind, ssm_send_command in H.
  destruct (send_command ssm _ _ _ _) as [a c].
  exists a, c. split; [done |]. cbn zeta.
  destruct a as [cid|[text|text]]; [| by injection H as <- <- | by injection H as <- <-].
  destruct (wait_for_completion ssm cid (i :: ids) _) as [r1 w1] eqn:Hw.
  exists r1. pose proof Hw as Hspec. unfold wait_for_completion in Hspec.
  apply poll_loop_spec in Hspec as (_ & _ & _ & _ & Hce & _).
  destruct r1 as [[[results ac] retries]|e].
  - by injection H as <- <-.
  - destruct e as [text|text]; [by destruct (Hce text) |].
    injection H as <- <-. by split_and!.
Qed.

End update_password_paths.


(** X2.  The password command goes out at most once, and first: either the
    list is empty and nothing is called at all, or the calls made are one
    [send_command] for the whole list followed by at most [max_retries]
    rounds, each a sleep of 10 seconds and status queries; these are about the
    command id [send_command] returned and about instances of the list, in the
    order of the list. *)
Theorem command_is_sent_once_then_polled {Chan} (ssm : ssm_client Chan)
    ids u p w :
  let out := update_password ssm ids u p w in
  (ids = [] ∧ out.2 = w) ∨
  (ids ≠ [] ∧ ∃ cid rounds,
     trace out.2
       = trace w ++ EvSendCommand ids (chpasswd_command u p)
                      ("Update password for user " +:+ u)
                    :: concat (round_events cid <$> rounds) ∧
     length rounds ≤ max_retries ∧
     Forall (λ qs, sublist qs ids) rounds ∧
     ∀ a c, send_command ssm ids (chpasswd_command u p)
              ("Update password for user " +:+ u) (chan w) = (a, c) →
            a = Ok cid ∨ rounds = []).
Proof.
  intros out. subst out.
  destruct (update_password ssm ids u p w) as [r w'] eqn:H. cbn.
  apply update_password_cases in H as [(-> & _ & ->) | (Hne & a & c & Hsend & H)];
    [by left |].
  right. split; [done |]. cbn zeta in H. destruct a as [cid|e].
  - destruct H as (r1 & Hw & _). unfold wait_for_completion in Hw.
    apply poll_loop_spec in Hw as (rounds & Ht & Hlen & Hrounds & _).
    exists cid, rounds. split_and!.
    + rewrite Ht. cbn. by rewrite <- app_assoc.
    + done.
    + eapply Forall_impl; [exact Hrounds |]. by intros qs [? _].
    + intros a' c'. rewrite Hsend. intros [= <- _]. by left.
  - exists "", []. assert (w' = {| chan := c;
       trace := trace w ++ [EvSendCommand ids (chpasswd_command u p)
                              ("Update password for user " +:+ u)] |}) as ->
      by (destruct e; by destruct H).
    split_and!; [done | cbn; lia | done |]. intros; by right.
Qed.

(** X3.  Once the service has accepted the command, and as long as its
    status queries raise nothing but ClientError, [update_password] returns
    results, and these have exactly one entry per instance of the list. *)
Theorem accepted_command_yields_results {Chan} (ssm : ssm_client Chan)
    i ids u p w cid c :
  raises_only_ClientError ssm →
  send_command ssm (i :: ids) (chpasswd_command u p)
    ("Update password for user " +:+ u) (chan w) = (Ok cid, c) →
  ∃ results w',
    update_password ssm (i :: ids) u p w = (Ok (Success results), w') ∧
    dom results = list_to_set (i :: ids).
Proof.
  intros Hssm Hsend.
  destruct (update_password_returns_results ssm i ids u p w cid c Hssm Hsend)
    as (results & w' & H).
  exists results, w'. split; [done |]. by eapply update_password_dom.
Qed.

Lemma accepted_command_yields_results_witness :
  raises_only_ClientError throttled_once ∧
  ∃ results w',
    update_password throttled_once ["i-1"; "i-2"] "alice" "secret" start
      = (Ok (Success results), w') ∧
    dom results = list_to_set ["i-1"; "i-2"].
Proof.
  assert (H : raises_only_ClientError throttled_once).
  { intros cid i c text c'. cbn. case_decide; intros [=]. }
  split; [exact H |].
  exact (accepted_command_yields_results throttled_once "i-1" ["i-2"] "alice" "secret"
           start "cmd-1" [] H eq_refl).
Defined.

Section all_Success.
Context {Chan : Type} (ssm : ssm_client Chan).

Lemma poll_instance_reports_Success cid i results all_complete w stderr c' :
  results !! i = Some pending →
  get_command_invocation ssm cid i (chan w)
    = (Ok {| Status := "Success"; StandardErrorContent := stderr |}, c') →
  poll_instance ssm cid i (results, all_complete) w
  = (Ok (<[i := succeeded]> results, all_complete),
     {| chan := c'; trace := trace w ++ [EvGetCommandInvocation cid i] |}).
Proof.
  intros Hi Hget.
  destruct (poll_instance ssm cid i (results, all_complete) w) as [r w1] eqn:H.
  apply poll_instance_spec in H
    as [(? & _) | [(e0 & He0 & Hn & _) | (e0 & a0 & c0 & He0 & _ & Hget0 & -> & Hr)]].
  - congruence.
  - rewrite Hi in He0. by injection He0 as <-.
  - rewrite Hget in Hget0. injection Hget0 as <- <-. subst r. cbn.
    by rewrite andb_true_r.
Qed.

Lemma poll_instance_skips_succeeded cid i results all_complete w :
  results !! i = Some succeeded →
  poll_instance ssm cid i (results, all_complete) w = (Ok (results, all_complete), w).
Proof.
  intros Hi.
  destruct (poll_instance ssm cid i (results, all_complete) w) as [r w1] eqn:H.
  apply poll_instance_spec in H
    as [(? & _) | [(e0 & He0 & Hn & -> & ->) | (e0 & a0 & c0 & He0 & Ha & _)]].
  - congruence.
  - done.
  - rewrite Hi in He0. by injection He0 as <-.
Qed.

(** A round in which every status query finds the command done. *)
Lemma for_instances_all_Success cid (ids0 : list string) :
  (∀ i c, i ∈ ids0 →
     ∃ stderr c', get_command_invocation ssm cid i c
                  = (Ok {| Status := "Success"; StandardErrorContent := stderr |}, c')) →
  ∀ ids results all_complete w,
    (∀ i, i ∈ ids → i ∈ ids0) →
    (∀ i, i ∈ ids0 → results !! i = Some pending ∨ results !! i = Some succeeded) →
    ∃ results' w' qs,
      for_instances ssm cid ids (results, all_complete) w
        = (Ok (results', all_complete), w') ∧
      trace w' = trace w ++ (EvGetCommandInvocation cid <$> qs) ∧
      dom results' = dom results ∧
      (∀ i, i ∈ ids0 → results' !! i = Some pending ∨ results' !! i = Some succeeded) ∧
      (∀ i, results !! i = Some succeeded → results' !! i = Some succeeded) ∧
      (∀ i, i ∈ ids → results' !! i = Some succeeded).
Proof.
  intros Hsucc. induction ids as [|i ids IH]; intros results ac w Hsub Hinv.
  - exists results, w, []. rewrite app_nil_r.
    split_and!; try done. by intros ? ?%elem_of_nil.
  - change (for_instances ssm cid (i :: ids) (results, ac) w)
      with (bind (poll_instance ssm cid i (results, ac)) (for_instances ssm cid ids) w).
    unfold bind.
    assert (Hi0 : i ∈ ids0) by (apply Hsub; by left).
    assert (Hstep : ∃ results1 w1 qs1,
              poll_instance ssm cid i (results, ac) w = (Ok (results1, ac), w1) ∧
              trace w1 = trace w ++ (EvGetCommandInvocation cid <$> qs1) ∧
              dom results1 = dom results ∧
              results1 !! i = Some succeeded ∧
              (∀ j, j ≠ i → results1 !! j = results !! j)).
    { destruct (Hinv i Hi0) as [Hp|Hs].
      - destruct (Hsucc i (chan w) Hi0) as (stderr & c' & Hget).
        eexists _, _, [i]. split; [by eapply poll_instance_reports_Success |].
        split_and!; [done | | apply lookup_insert_eq |].
        + apply dom_insert_lookup_L. by eexists.
        + intros j Hj. by rewrite lookup_insert_ne.
      - exists results, w, []. rewrite app_nil_r.
        split; [by apply poll_instance_skips_succeeded | done]. }
    destruct Hstep as (results1 & w1 & qs1 & -> & Ht1 & Hdom1 & Hi1 & Hframe1).
    assert (Hinv1 : ∀ j, j ∈ ids0 →
              results1 !! j = Some pending ∨ results1 !! j = Some succeeded).
    { intros j Hj. destruct (decide (j = i)) as [->|Hne]; [by right |].
      rewrite Hframe1 by done. by apply Hinv. }
    destruct (IH results1 ac w1) as (results' & w' & qs & -> & Ht & Hdom & Hinv' & Hkeep & Hall);
      [intros j Hj; apply Hsub; by right | done |].
    exists results', w', (qs1 ++ qs). split_and!; try done.
    + by rewrite Ht, Ht1, fmap_app, app_assoc.
    + by rewrite Hdom.
    + intros j Hj. apply Hkeep. destruct (decide (j = i)) as [->|Hne]; [done |].
      by rewrite Hframe1.
    + intros j [->|Hj]%elem_of_cons; [by apply Hkeep | by apply Hall].
Qed.

End all_Success.

Lemma filter_all {A} (P : A → Prop) `{!∀ x, Decision (P x)} (l : list A) :
  (∀ x, x ∈ l → P x) → filter P l = l.
Proof.
  induction l as [|a l IH]; intros Hall; [done |].
  rewrite filter_cons_True by (apply Hall; by left).
  f_equal. apply IH. intros x Hx. apply Hall. by right.
Qed.

(** X4.  When the service accepts the command and finds it done at every
    status query, [update_password] is back after a single round: it returns
    every instance of the list as Success with the message "Password updated
    successfully".  For distinct instances the summary then counts them all
    as succeeded, none as failed, and lists no instance. *)
Theorem all_Success_takes_one_round {Chan} (ssm : ssm_client Chan)
    label i ids u p w cid c :
  send_command ssm (i :: ids) (chpasswd_command u p)
    ("Update password for user " +:+ u) (chan w) = (Ok cid, c) →
  (∀ j c0, j ∈ i :: ids →
     ∃ stderr c', get_command_invocation ssm cid j c0
                  = (Ok {| Status := "Success"; StandardErrorContent := stderr |}, c')) →
  ∃ results w' qs,
    update_password ssm (i :: ids) u p w = (Ok (Success results), w') ∧
    trace w' = trace w
               ++ EvSendCommand (i :: ids) (chpasswd_command u p)
                    ("Update password for user " +:+ u)
               :: round_events cid qs ∧
    (∀ j, j ∈ i :: ids →
       results !! j = Some {| status := "Success";
                              message := "Password updated successfully" |}) ∧
    (NoDup (i :: ids) →
       success_count (summarize label (i :: ids) results) = length (i :: ids) ∧
       failed (summarize label (i :: ids) results) = 0%Z ∧
       errors (summarize label (i :: ids) results) = []).
Proof.
  intros Hsend Hsucc.
  destruct (for_instances_all_Success ssm cid (i :: ids) Hsucc (i :: ids)
              (initial_results (i :: ids)) true
              {| chan := c;
                 trace := (trace w ++ [EvSendCommand (i :: ids) (chpasswd_command u p)
                                         ("Update password for user " +:+ u)])
                          ++ [EvSleep 10] |})
    as (results & w' & qs & Hfor & Ht & Hdom & _ & _ & Hall); [done | |].
  { intros j Hj. left. by rewrite initial_results_lookup, decide_True. }
  assert (Hrun : update_password ssm (i :: ids) u p w = (Ok (Success results), w')).
  { unfold update_password, try_except_ClientError, bind, ssm_send_command.
    rewrite Hsend. unfold wait_for_completion, max_retries.
    cbn [poll_loop]. unfold bind, poll_round, sleep, bind. cbn [chan trace].
    by rewrite Hfor. }
  exists results, w', qs. split_and!; [done | | done |].
  { rewrite Ht. cbn. by rewrite <- !app_assoc. }
  intros Hnd.
  assert (Hdom' : dom results = list_to_set (i :: ids))
    by (by rewrite Hdom, initial_results_dom).
  assert (Hcount : success_count (summarize label (i :: ids) results)
                   = length (i :: ids)).
  { rewrite success_count_by_instance by done.
    f_equal. apply filter_all. intros j Hj. by rewrite (Hall j Hj). }
  pose proof Hcount as Hcount'. cbn in Hcount'.
  split_and!; [done | cbn; lia |].
  cbn. rewrite decide_False; [done | lia].
Qed.

Lemma all_Success_takes_one_round_witness :
  ∃ results w' qs,
    update_password all_done ["i-1"; "i-2"] "alice" "secret" start
      = (Ok (Success results), w') ∧
    trace w' = trace start
               ++ EvSendCommand ["i-1"; "i-2"] (chpasswd_command "alice" "secret")
                    ("Update password for user " +:+ "alice")
               :: round_events "cmd-1" qs ∧
    (∀ j, j ∈ ["i-1"; "i-2"] →
       results !! j = Some {| status := "Success";
                              message := "Password updated successfully" |}) ∧
    (NoDup ["i-1"; "i-2"] →
       success_count (summarize id ["i-1"; "i-2"] results) = length ["i-1"; "i-2"] ∧
       failed (summarize id ["i-1"; "i-2"] results) = 0%Z ∧
       errors (summarize id ["i-1"; "i-2"] results) = []).
Proof.
  apply (all_Success_takes_one_round all_done id "i-1" ["i-2"] "alice" "secret"
           start "cmd-1" []).
  - reflexivity.
  - intros j c0 _. by eexists _, _.
Defined.

(** ** The summary, in general *)

Lemma entries_at_most_instances (results : gmap string entry) (ids : list string) :
  dom results = list_to_set ids → length (map_to_list results) ≤ length ids.
Proof.
  intros Hdom. rewrite <- (length_fmap fst).
  apply submseteq_length, NoDup_submseteq; [apply NoDup_fst_map_to_list |].
  intros j ([j' e'] & -> & Hin)%list_elem_of_fmap.
  apply elem_of_map_to_list in Hin. cbn.
  rewrite <- (elem_of_list_to_set (C := gset string) j' ids), <- Hdom.
  by apply elem_of_dom_2 in Hin.
Qed.

(** X5.  For results with one entry per instance of the list, as
    [update_password] returns them, the summary never shows more successes
    than instances nor a negative number of failures.  For distinct instances
    the listing under "Instances with errors" has exactly [failed] lines: one
    for each instance whose status is not Success, with its label, status and
    message. *)
Theorem summary_counts_are_consistent label (ids : list string)
    (results : gmap string entry) :
  dom results = list_to_set ids →
  let s := summarize label ids results in
  success_count s ≤ total s ∧
  (0 ≤ failed s)%Z ∧
  (NoDup ids →
     Z.of_nat (length (errors s)) = failed s ∧
     ∀ x, x ∈ errors s ↔
          ∃ i e, i ∈ ids ∧ results !! i = Some e ∧ status e ≠ "Success" ∧
                 x = (label i, status e, message e)).
Proof.
  intros Hdom s.
  pose proof (entries_at_most_instances results ids Hdom) as Hsize.
  pose proof (length_filter (λ item : string * entry, status item.2 = "Success")
                (map_to_list results)) as Hle.
  split_and!; [cbn; lia | cbn; lia |].
  intros Hnd.
  assert (Hin : ∀ i e, results !! i = Some e → i ∈ ids).
  { intros i e Hi. rewrite <- (elem_of_list_to_set (C := gset string) i ids), <- Hdom.
    by apply elem_of_dom_2 in Hi. }
  assert (Hlen : length (map_to_list results) = length ids).
  { rewrite <- (length_fmap fst). by rewrite (keys_of_results _ _ Hnd Hdom). }
  pose proof (filter_app_complement
                (λ item : string * entry, status item.2 = "Success")
                (map_to_list results)) as Hp.
  apply Permutation_length in Hp. rewrite length_app in Hp.
  subst s. cbn. case_decide as Hf.
  - split; [rewrite length_fmap; lia |].
    intros x. rewrite list_elem_of_fmap. split.
    + intros ([i e] & -> & [Hs Hie%elem_of_map_to_list]%list_elem_of_filter).
      exists i, e. split_and!; [by eapply Hin | done | done | done].
    + intros (i & e & _ & Hie & Hs & ->). exists (i, e). split; [done |].
      apply list_elem_of_filter. split; [done | by apply elem_of_map_to_list].
  - split; [cbn; lia |].
    intros x. split; [by intros ?%elem_of_nil |].
    intros (i & e & _ & Hie & Hs & ->).
    destruct (not_succeeded_is_listed label ids results i e Hdom Hie Hs) as [Hpos _].
    cbn in Hpos. lia.
Qed.

Lemma summary_counts_are_consistent_witness :
  let ids := ["i-1"; "i-2"] in
  let s := summarize id ids one_done in
  dom one_done = list_to_set ids ∧
  success_count s ≤ total s ∧
  (0 ≤ failed s)%Z ∧
  (NoDup ids →
     Z.of_nat (length (errors s)) = failed s ∧
     ∀ x, x ∈ errors s ↔
          ∃ i e, i ∈ ids ∧ one_done !! i = Some e ∧ status e ≠ "Success" ∧
                 x = (id i, status e, message e)).
Proof.
  intros ids s.
  assert (Hdom : dom one_done = list_to_set ids) by (vm_compute; reflexivity).
  split; [exact Hdom |].
  exact (summary_counts_are_consistent id ids one_done Hdom).
Defined.

(** ** [main] of the SSM scripts *)

Lemma lower_is_y (s : string) : lower s = "y" ↔ s = "y" ∨ s = "Y".
Proof.
  destruct s as [|a [|b s]]; cbn.
  - split; [done | by intros [|]].
  - destruct a as [[] [] [] [] [] [] [] []]; vm_compute;
      (split; [intros H; try discriminate H; auto
              | intros [H|H]; try discriminate H; auto]).
  - split; [intros H; discriminate H | intros [H|H]; discriminate H].
Qed.

Section main_facts.
Context {Chan : Type} (ssm : ssm_client Chan).

Lemma rounds_send_nothing cid (rounds : list (list string)) ids' cmd comment :
  EvSendCommand ids' cmd comment ∉ concat (round_events cid <$> rounds).
Proof.
  induction rounds as [|qs rounds IH]; [apply not_elem_of_nil |].
  cbn [fmap list_fmap concat]. rewrite elem_of_app. intros [Hin|Hin]; [| done].
  apply elem_of_cons in Hin as [Hin|Hin]; [done |].
  by apply list_elem_of_fmap in Hin as (? & ? & _).
Qed.

(** What [update_password] adds to the trace: nothing, or the command and
    then no second one. *)
Lemma update_password_trace ids u p w r w' :
  update_password ssm ids u p w = (r, w') →
  (ids = [] ∧ w' = w) ∨
  (ids ≠ [] ∧ ∃ rest,
     trace w' = trace w ++ EvSendCommand ids (chpasswd_command u p)
                             ("Update password for user " +:+ u) :: rest ∧
     ∀ ids' cmd comment, EvSendCommand ids' cmd comment ∉ rest).
Proof.
  intros H.
  apply update_password_cases in H as [(-> & _ & ->) | (Hne & a & c & Hsend & H)];
    [by left |].
  right. split; [done |]. cbn zeta in H. destruct a as [cid|e].
  - destruct H as (r1 & Hw & _). unfold wait_for_completion in Hw.
    apply poll_loop_spec in Hw as (rounds & Ht & _).
    exists (concat (round_events cid <$> rounds)). split.
    + rewrite Ht. cbn. by rewrite <- app_assoc.
    + intros ids' cmd comment. apply rounds_send_nothing.
  - exists []. assert (w' = {| chan := c;
       trace := trace w ++ [EvSendCommand ids (chpasswd_command u p)
                              ("Update password for user " +:+ u)] |}) as ->
      by (destruct e; by destruct H).
    split; [done |]. intros ? ? ? ?%elem_of_nil. done.
Qed.

Lemma change_and_report_trace label u p cp cf ids w r w' :
  change_and_report ssm label u p cp cf ids w = (r, w') →
  w' = w ∨
  (p = cp ∧ (cf = "y" ∨ cf = "Y") ∧ ids ≠ [] ∧ ∃ rest,
     trace w' = trace w ++ EvSendCommand ids (chpasswd_command u p)
                             ("Update password for user " +:+ u) :: rest ∧
     ∀ ids' cmd comment, EvSendCommand ids' cmd comment ∉ rest).
Proof.
  unfold change_and_report.
  destruct (decide (p ≠ cp)) as [|Heq%dec_stable]; [intros [= _ <-]; by left |].
  destruct (decide (lower cf ≠ "y")) as [|Hy%dec_stable]; [intros [= _ <-]; by left |].
  apply lower_is_y in Hy. unfold bind.
  destruct (update_password ssm ids u p w) as [r1 w1] eqn:H1.
  apply update_password_trace in H1 as [(_ & ->) | (Hne & rest & Ht & Hrest)].
  - intros H. left. destruct r1 as [[m|results]|e]; by injection H as _ <-.
  - intros H. right.
    assert (w' = w1) as -> by (destruct r1 as [[m|results]|e]; by injection H as _ <-).
    split_and!; try done. by exists rest.
Qed.

End main_facts.


(** ** Selecting the instances *)

(** X7.  [get_instance_ids] raises no ClientError: a refused query gives the
    empty list.  Called with tags and no ids, it returns the instances of the
    answer that are running, all of them and no other. *)
Theorem tagged_instances_are_the_running_ones (ec2 : ec2_client)
    instance_ids_txt :
  (∀ tags instance_ids text,
     get_instance_ids ec2 instance_ids_txt tags instance_ids
     ≠ Raise (ClientError text)) ∧
  (∀ t ts reservations,
     ec2 (tag_filters (t :: ts)) = Ok reservations →
     ∃ ids,
       get_instance_ids ec2 instance_ids_txt (Some (t :: ts)) None = Ok ids ∧
       ∀ i, i ∈ ids ↔
            ∃ instance, instance ∈ concat reservations ∧
                        State_Name instance = "running" ∧
                        InstanceId instance = i).
Proof.
  split.
  - intros tags instance_ids text. unfold get_instance_ids.
    destruct instance_ids as [[|i ids]|], tags as [[|t ts]|];
      try destruct instance_ids_txt; try done;
      by destruct (ec2 _) as [?|[?|?]].
  - intros t ts reservations Hec2. exists (running_ids reservations).
    unfold get_instance_ids. rewrite Hec2. split; [done |].
    intros i. unfold running_ids. rewrite list_elem_of_fmap. split.
    + intros (instance & -> & [Hr Hin]%list_elem_of_filter). by exists instance.
    + intros (instance & Hin & Hr & <-). exists instance. split; [done |].
      by apply list_elem_of_filter.
Qed.

Lemma tagged_instances_are_the_running_ones_witness :
  ∃ reservations,
    three_machines (tag_filters [("Env", "prod")]) = Ok reservations ∧
    ∃ ids,
      get_instance_ids three_machines None (Some [("Env", "prod")]) None = Ok ids ∧
      ∀ i, i ∈ ids ↔
           ∃ instance, instance ∈ concat reservations ∧
                       State_Name instance = "running" ∧
                       InstanceId instance = i.
Proof.
  eexists. split; [reflexivity |].
  destruct (tagged_instances_are_the_running_ones three_machines None) as [_ H].
  exact (H ("Env", "prod") [] _ eq_refl).
Defined.

Section availability_facts.

Lemma listed_page (ids page : list string) : ∀ (available : gset string) i,
  i ∈ foldl (λ available instance,
               if decide (instance ∈ ids) then available ∪ {[instance]}
               else available) available page
  ↔ i ∈ available ∨ (i ∈ ids ∧ i ∈ page).
Proof.
  induction page as [|j page IH]; intros available i; cbn.
  - rewrite elem_of_nil. tauto.
  - rewrite IH. rewrite elem_of_cons. case_decide as Hj.
    + rewrite elem_of_union, elem_of_singleton. split; [| tauto].
      intros [[?| ->]|?]; tauto.
    + split; [tauto |]. intros [?|[? [ ->|?]]]; tauto.
Qed.

(** When no page raises, the set built is the part of the list that some
    page names. *)
Lemma listed_spec (ids : list string) (pages : list (list string)) :
  ∀ (available : gset string),
  ∃ s, updates_pass_ip.listed ids (Ok <$> pages) available = Ok s ∧
       ∀ i, i ∈ s ↔ i ∈ available ∨ (i ∈ ids ∧ i ∈ concat pages).
Proof.
  induction pages as [|page pages IH]; intros available.
  - exists available. split; [done |]. intros i. cbn. rewrite elem_of_nil. tauto.
  - cbn [fmap list_fmap updates_pass_ip.listed concat].
    destruct (IH (foldl (λ available instance,
                           if decide (instance ∈ ids) then available ∪ {[instance]}
                           else available) available page)) as (s & -> & Hs).
    exists s. split; [done |]. intros i.
    rewrite Hs, listed_page, elem_of_app. tauto.
Qed.

(** If [listed] gives a set, no page raised. *)
Lemma listed_Ok_pages (ids : list string) : ∀ pages (available s : gset string),
  updates_pass_ip.listed ids pages available = Ok s →
  ∃ pgs, pages = Ok <$> pgs.
Proof.
  induction pages as [|[page|e] pages IH]; intros available s H.
  - by exists [].
  - cbn in H. apply IH in H as [pgs ->]. by exists (page :: pgs).
  - done.
Qed.

End availability_facts.

(** X8.  When the listing goes through, page after page,
    [verify_ssm_availability] splits the instances in two: available are the
    instances of the list named on some page, each once; unavailable are the
    others, in the order of the list.  Instances the listing names but the
    list does not have are ignored. *)
Theorem availability_splits_the_instances {Chan} (ssm : ssm_client Chan)
    ids w pages :
  describe_instance_information ssm (chan w) = Ok <$> pages →
  ∃ available,
    updates_pass_ip.verify_ssm_availability ssm ids w
      = (Ok (available, filter (λ i, i ∉ concat pages) ids),
         {| chan := chan w;
            trace := trace w ++ [EvDescribeInstanceInformation] |}) ∧
    NoDup available ∧
    (∀ i, i ∈ available ↔ i ∈ ids ∧ i ∈ concat pages).
Proof.
  intros Hpages. unfold updates_pass_ip.verify_ssm_availability. rewrite Hpages.
  destruct (listed_spec ids pages ∅) as (s & -> & Hs).
  assert (Hs' : ∀ i, i ∈ s ↔ i ∈ ids ∧ i ∈ concat pages).
  { intros i. rewrite Hs, elem_of_empty. tauto. }
  exists (elements s). split_and!.
  - do 3 f_equal. apply filter_ext_elem. intros i Hi. rewrite Hs'. tauto.
  - apply NoDup_elements.
  - intros i. by rewrite elem_of_elements.
Qed.

Lemma availability_splits_the_instances_witness :
  describe_instance_information listing_two_pages (chan start)
    = Ok <$> [["i-1"; "i-7"]; ["i-3"]] ∧
  ∃ available,
    updates_pass_ip.verify_ssm_availability listing_two_pages
      ["i-3"; "i-2"; "i-1"] start
      = (Ok (available,
             filter (λ i, i ∉ concat [["i-1"; "i-7"]; ["i-3"]]) ["i-3"; "i-2"; "i-1"]),
         {| chan := chan start;
            trace := trace start ++ [EvDescribeInstanceInformation] |}) ∧
    NoDup available ∧
    (∀ i, i ∈ available ↔
          i ∈ ["i-3"; "i-2"; "i-1"] ∧ i ∈ concat [["i-1"; "i-7"]; ["i-3"]]).
Proof.
  split; [reflexivity |].
  exact (availability_splits_the_instances listing_two_pages ["i-3"; "i-2"; "i-1"]
           start [["i-1"; "i-7"]; ["i-3"]] eq_refl).
Defined.

(** ** Selecting by address, and the labels *)

Section dict_facts.
Context {V : Type}.

Lemma dict_set_keys (k : string) (v : V) (d : list (string * V)) k' :
  k' ∈ (dict_set k v d).*1 ↔ k' = k ∨ k' ∈ d.*1.
Proof.
  induction d as [|[k0 v0] d IH]; cbn.
  - rewrite list_elem_of_singleton, elem_of_nil. tauto.
  - case_decide as Hk; cbn; rewrite !elem_of_cons; [subst; tauto |].
    rewrite IH. tauto.
Qed.

Lemma dict_set_NoDup (k : string) (v : V) (d : list (string * V)) :
  NoDup d.*1 → NoDup (dict_set k v d).*1.
Proof.
  induction d as [|[k0 v0] d IH]; cbn.
  - intros _. apply NoDup_singleton.
  - intros [Hk0 Hd]%NoDup_cons. case_decide as Hk; cbn.
    + subst. by apply NoDup_cons.
    + apply NoDup_cons. split; [| by apply IH].
      rewrite dict_set_keys. intros [->|?]; done.
Qed.

Lemma dict_set_elem (k : string) (v : V) (d : list (string * V)) kv :
  kv ∈ dict_set k v d → kv = (k, v) ∨ kv ∈ d.
Proof.
  induction d as [|[k0 v0] d IH]; cbn.
  - intros ->%list_elem_of_singleton. by left.
  - case_decide as Hk; rewrite !elem_of_cons; [tauto |].
    intros [->|Hin]; [tauto |]. apply IH in Hin. tauto.
Qed.

End dict_facts.

Section by_address.
Context (private_ips : list string).

#[local] Abbreviation record_address :=
  (λ (ip_to_instance : list (string * string)) (instance : ec2_instance),
     match PrivateIpAddress instance with
     | Some private_ip =>
         if decide (private_ip ≠ EmptyString ∧ private_ip ∈ private_ips)
         then dict_set private_ip (InstanceId instance) ip_to_instance
         else ip_to_instance
     | None => ip_to_instance
     end).

Lemma recorded_addresses_NoDup (instances : list ec2_instance) : ∀ d,
  NoDup d.*1 → NoDup (foldl record_address d instances).*1.
Proof.
  induction instances as [|instance instances IH]; intros d Hd; [done |].
  cbn. apply IH. destruct (PrivateIpAddress instance); [| done].
  case_decide; [by apply dict_set_NoDup | done].
Qed.

Lemma recorded_addresses_elem (instances : list ec2_instance) : ∀ d ip id,
  (ip, id) ∈ foldl record_address d instances →
  (ip, id) ∈ d ∨
  (ip ∈ private_ips ∧ ip ≠ EmptyString ∧
   ∃ instance, instance ∈ instances ∧
               PrivateIpAddress instance = Some ip ∧ InstanceId instance = id).
Proof.
  induction instances as [|instance instances IH]; intros d ip id Hin; [by left |].
  cbn in Hin. apply IH in Hin as [Hin|(? & ? & inst & ? & ? & ?)].
  - destruct (PrivateIpAddress instance) as [private_ip|] eqn:Hip; [| by left].
    case_decide as Hok; [| by left].
    apply dict_set_elem in Hin as [[= -> ->]|Hin]; [| by left].
    right. split_and!; [tauto | tauto |]. exists instance. split; [by left | done].
  - right. split_and!; [done | done |]. exists inst. split; [by right | done].
Qed.

Lemma recorded_addresses_keys (instances : list ec2_instance) : ∀ d ip,
  ip ∈ (foldl record_address d instances).*1 ↔
  ip ∈ d.*1 ∨
  (ip ∈ private_ips ∧ ip ≠ EmptyString ∧
   ∃ instance, instance ∈ instances ∧ PrivateIpAddress instance = Some ip).
Proof.
  induction instances as [|instance instances IH]; intros d ip.
  - cbn. split; [by left |]. intros [?|(_ & _ & ? & ?%elem_of_nil & _)]; done.
  - cbn [foldl]. rewrite IH. split.
    + intros [Hin|(? & ? & inst & ? & ?)].
      * destruct (PrivateIpAddress instance) as [private_ip|] eqn:Hip; [| by left].
        case_decide as Hok; [| by left].
        apply dict_set_keys in Hin as [->|Hin]; [| by left].
        right. split_and!; [tauto | tauto |]. exists instance. split; [by left | done].
      * right. split_and!; [done | done |]. exists inst. split; [by right | done].
    + intros [Hin|(Hips & Hne & inst & [->|Hinst]%elem_of_cons & Hip)].
      * left. destruct (PrivateIpAddress instance); [| done].
        case_decide; [| done]. apply dict_set_keys. by right.
      * left. rewrite Hip. rewrite decide_True by done.
        apply dict_set_keys. by left.
      * right. split_and!; [done | done |]. by exists inst.
Qed.

End by_address.

(** X9.  When the EC2 query goes through, [get_instance_ids_from_ips]
    returns a dictionary whose keys are distinct addresses of the list asked
    for: exactly those that some instance of the answer has.  Each is mapped
    to the id of an instance of the answer with that address. *)
Theorem addresses_map_to_their_instances (ec2 : ec2_client)
    private_ips reservations :
  ec2 [("private-ip-address", private_ips); ("instance-state-name", ["running"])]
    = Ok reservations →
  ∃ ip_to_instance,
    updates_pass_ip.get_instance_ids_from_ips ec2 private_ips = Ok ip_to_instance ∧
    NoDup ip_to_instance.*1 ∧
    (∀ ip, ip ∈ ip_to_instance.*1 ↔
           ip ∈ private_ips ∧ ip ≠ EmptyString ∧
           ∃ instance, instance ∈ concat reservations ∧
                       PrivateIpAddress instance = Some ip) ∧
    (∀ ip id, (ip, id) ∈ ip_to_instance →
       ∃ instance, instance ∈ concat reservations ∧
                   PrivateIpAddress instance = Some ip ∧ InstanceId instance = id).
Proof.
  intros Hec2. unfold updates_pass_ip.get_instance_ids_from_ips. rewrite Hec2.
  eexists. split; [reflexivity |]. split_and!.
  - apply recorded_addresses_NoDup. constructor.
  - intros ip. rewrite recorded_addresses_keys. cbn. rewrite elem_of_nil. tauto.
  - intros ip id Hin.
    apply recorded_addresses_elem in Hin as [?%elem_of_nil|(_ & _ & H)]; done.
Qed.

Lemma addresses_map_to_their_instances_witness :
  ∃ reservations,
    three_machines [("private-ip-address", ["10.0.0.3"; "10.0.0.9"]);
                    ("instance-state-name", ["running"])] = Ok reservations ∧
    ∃ ip_to_instance,
      updates_pass_ip.get_instance_ids_from_ips three_machines ["10.0.0.3"; "10.0.0.9"]
        = Ok ip_to_instance ∧
      NoDup ip_to_instance.*1 ∧
      (∀ ip, ip ∈ ip_to_instance.*1 ↔
             ip ∈ ["10.0.0.3"; "10.0.0.9"] ∧ ip ≠ EmptyString ∧
             ∃ instance, instance ∈ concat reservations ∧
                         PrivateIpAddress instance = Some ip) ∧
      (∀ ip id, (ip, id) ∈ ip_to_instance →
         ∃ instance, instance ∈ concat reservations ∧
                     PrivateIpAddress instance = Some ip ∧ InstanceId instance = id).
Proof.
  eexists. split; [reflexivity |].
  exact (addresses_map_to_their_instances three_machines ["10.0.0.3"; "10.0.0.9"]
           _ eq_refl).
Defined.

Section label_facts.

Lemma ip_labels_dom (ip_to_instance : list (string * string)) :
  dom (updates_pass_ip.ip_labels ip_to_instance) = list_to_set ip_to_instance.*2.
Proof.
  unfold updates_pass_ip.ip_labels.
  assert (H : ∀ acc : gmap string string,
            dom (foldl (λ d item, <[item.2 := "IP: " +:+ item.1]> d) acc ip_to_instance)
            = dom acc ∪ list_to_set ip_to_instance.*2).
  { induction ip_to_instance as [|[ip id] l IH]; intros acc; cbn.
    - set_solver.
    - rewrite IH, dom_insert_L. set_solver. }
  rewrite H. set_solver.
Qed.

Lemma id_labels_dom (ids : list string) :
  dom (updates_pass_ip.id_labels ids) = list_to_set ids.
Proof.
  apply set_eq. intros j.
  rewrite elem_of_dom, id_labels_lookup, elem_of_list_to_set.
  case_decide; split; try done; by intros [? ?].
Qed.

Lemma select_running_spec (reservations : list (list ec2_instance)) :
  ∃ display_info,
    updates_pass_ip.select_running reservations
      = (running_ids reservations, display_info) ∧
    dom display_info = list_to_set (running_ids reservations).
Proof.
  unfold updates_pass_ip.select_running, running_ids.
  generalize (concat reservations). intros instances.
  assert (H : ∀ (ids0 : list string) (d0 : gmap string string),
            ∃ d, foldl (λ '(instance_ids, display_info) instance,
                          if decide (State_Name instance = "running") then
                            (instance_ids ++ [InstanceId instance],
                             <[InstanceId instance :=
                                 updates_pass_ip.name_tag instance +:+ " (" +:+
                                 default "No IP" (PrivateIpAddress instance) +:+ ")"]>
                               display_info)
                          else (instance_ids, display_info))
                       (ids0, d0) instances
                 = (ids0 ++ (InstanceId <$> filter (λ i, State_Name i = "running") instances),
                    d) ∧
                 dom d = dom d0 ∪ list_to_set
                           (InstanceId <$> filter (λ i, State_Name i = "running") instances)).
  { induction instances as [|instance instances IH]; intros ids0 d0.
    - exists d0. cbn. rewrite app_nil_r. split; [done | set_solver].
    - cbn [foldl]. rewrite filter_cons. case_decide as Hr.
      + destruct (IH (ids0 ++ [InstanceId instance])
                    (<[InstanceId instance :=
                         updates_pass_ip.name_tag instance +:+ " (" +:+
                         default "No IP" (PrivateIpAddress instance) +:+ ")"]> d0))
          as (d & -> & Hd).
        exists d. split; [by rewrite <- app_assoc |].
        rewrite Hd, dom_insert_L. cbn. set_solver.
      + apply IH. }
  destruct (H [] ∅) as (d & Hd & Hdom). exists d. split; [done |].
  rewrite Hdom. set_solver.
Qed.

End label_facts.

(** X10.  Whatever the choice, when [get_instance_info] returns, the list of
    instances is not empty and [display_info] has a label for exactly the
    instances of the list: no instance is later shown by its bare id for lack
    of one.  A choice other than 1 to 5 never returns: it leaves with exit
    status 1. *)
Theorem every_selected_instance_has_a_label (ec2 : ec2_client)
    ip_addresses_txt instance_ids_txt a ids display_info :
  updates_pass_ip.get_instance_info ec2 ip_addresses_txt instance_ids_txt a
    = Ok (Returned (ids, display_info)) →
  ids ≠ [] ∧
  dom display_info = list_to_set ids ∧
  updates_pass_ip.choice a ∈ ["1"; "2"; "3"; "4"; "5"].
Proof.
  assert (Hips : ∀ ips ids d,
            updates_pass_ip.select_by_ips ec2 ips = Ok (Returned (ids, d)) →
            dom d = list_to_set ids).
  { intros ips ids0 d. unfold updates_pass_ip.select_by_ips.
    destruct ips; [done |].
    destruct (updates_pass_ip.get_instance_ids_from_ips ec2 _) as [[|x l]|e];
      [done | | done].
    intros [= <- <-]. apply ip_labels_dom. }
  unfold updates_pass_ip.get_instance_info.
  match goal with |- context [match ?sel with Ok _ => _ | Raise _ => _ end] =>
    destruct sel as [[[[|i ids0] d]|code]|e] eqn:Hsel end; try done.
  intros [= <- <-]. split; [done |].
  repeat case_decide.
  - split; [| set_solver]. destruct ip_addresses_txt; [by eapply Hips | done].
  - split; [| set_solver]. destruct instance_ids_txt as [lines|]; [| done].
    destruct (stripped_nonempty lines) as [|j given]; [done |].
    injection Hsel as <- <- <-. apply id_labels_dom.
  - split; [| set_solver]. destruct (updates_pass_ip.tag_pairs a); [done |].
    destruct (ec2 _) as [reservations|[text|text]]; [| done | done].
    destruct (select_running_spec reservations) as (d' & Hd & Hdom).
    rewrite Hd in Hsel. injection Hsel as Hids <-. by rewrite Hdom, Hids.
  - split; [by eapply Hips | set_solver].
  - split; [| set_solver].
    destruct (stripped_nonempty _) as [|j given]; [done |].
    injection Hsel as <- <- <-. apply id_labels_dom.
  - done.
Qed.

Lemma every_selected_instance_has_a_label_witness :
  ∃ ids display_info,
    updates_pass_ip.get_instance_info three_machines None None typed_two
      = Ok (Returned (ids, display_info)) ∧
    ids ≠ [] ∧
    dom display_info = list_to_set ids ∧
    updates_pass_ip.choice typed_two ∈ ["1"; "2"; "3"; "4"; "5"].
Proof.
  exists ["i-1"; "i-2"], (updates_pass_ip.id_labels ["i-1"; "i-2"]).
  assert (H : updates_pass_ip.get_instance_info three_machines None None typed_two
              = Ok (Returned (["i-1"; "i-2"], updates_pass_ip.id_labels ["i-1"; "i-2"])))
    by (vm_compute; reflexivity).
  split; [exact H |].
  exact (every_selected_instance_has_a_label three_machines None None typed_two _ _ H).
Defined.

(** ** [main] of [updates_pass_ip.py] *)

Section updates_main_facts.
Context {Chan : Type} (ssm : ssm_client Chan).

(** Every way through [verify_ssm_availability]. *)
Lemma verify_ssm_availability_cases ids w r w' :
  updates_pass_ip.verify_ssm_availability ssm ids w = (r, w') →
  w' = {| chan := chan w; trace := trace w ++ [EvDescribeInstanceInformation] |} ∧
  ∀ available unavailable, r = Ok (available, unavailable) →
    (available = [] ∧ unavailable = ids) ∨
    (∃ pages,
       describe_instance_information ssm (chan w) = Ok <$> pages ∧
       NoDup available ∧
       (∀ i, i ∈ available ↔ i ∈ ids ∧ i ∈ concat pages) ∧
       unavailable = filter (λ i, i ∉ available) ids).
Proof.
  unfold updates_pass_ip.verify_ssm_availability.
  destruct (updates_pass_ip.listed ids _ ∅) as [s|[text|text]] eqn:Hl;
    intros [= <- <-]; (split; [done |]); intros available unavailable [= <- <-].
  - right. destruct (listed_Ok_pages _ _ _ _ Hl) as [pages Hpages].
    exists pages. split; [done |].
    rewrite Hpages in Hl. destruct (listed_spec ids pages ∅) as (s' & Hl' & Hs).
    rewrite Hl in Hl'. injection Hl' as <-.
    split_and!; [apply NoDup_elements | | ].
    + intros i. rewrite elem_of_elements, Hs, elem_of_empty. tauto.
    + apply filter_ext_elem. intros i _. by rewrite elem_of_elements.
  - by left.
Qed.

End updates_main_facts.

(** X11.  [main] of [updates_pass_ip.py] sends the command at most once, and
    only to instances that were selected and that the listing of the service
    names, each once.  It does so only after the listing went through without
    an error, with equal passwords and a confirmation "y" or "Y", and, when
    some selected instance is not listed, only if the user agreed, by "y" or
    "Y", to go on without it. *)
Theorem updates_main_sends_only_to_listed_instances {Chan}
    (ssm : ssm_client Chan) ec2 ip_addresses_txt instance_ids_txt a w :
  let out := updates_pass_ip.main ssm ec2 ip_addresses_txt instance_ids_txt a w in
  ∃ events,
    trace out.2 = trace w ++ events ∧
    ((∀ ids cmd comment, EvSendCommand ids cmd comment ∉ events) ∨
     (∃ selected display_info pages available rest,
        updates_pass_ip.get_instance_info ec2 ip_addresses_txt instance_ids_txt a
          = Ok (Returned (selected, display_info)) ∧
        describe_instance_information ssm (chan w) = Ok <$> pages ∧
        events = EvDescribeInstanceInformation
                 :: EvSendCommand available
                      (chpasswd_command (updates_pass_ip.username a)
                         (updates_pass_ip.new_password a))
                      ("Update password for user " +:+ updates_pass_ip.username a)
                 :: rest ∧
        (∀ ids cmd comment, EvSendCommand ids cmd comment ∉ rest) ∧
        available ≠ [] ∧ NoDup available ∧
        (∀ i, i ∈ available ↔ i ∈ selected ∧ i ∈ concat pages) ∧
        updates_pass_ip.new_password a = updates_pass_ip.confirm_password a ∧
        (updates_pass_ip.confirm a = "y" ∨ updates_pass_ip.confirm a = "Y") ∧
        ((∀ i, i ∈ selected → i ∈ available) ∨
         updates_pass_ip.proceed a = "y" ∨ updates_pass_ip.proceed a = "Y"))).
Proof.
  intros out. subst out. unfold updates_pass_ip.main.
  destruct (updates_pass_ip.get_instance_info ec2 ip_addresses_txt
              instance_ids_txt a) as [[[selected display_info]|code]|e] eqn:Hinfo.
  2,3: exists []; rewrite app_nil_r; split; [done | left];
       by intros ? ? ? ?%elem_of_nil.
  unfold bind.
  destruct (updates_pass_ip.verify_ssm_availability ssm selected w)
    as [rv wv] eqn:Hv.
  apply verify_ssm_availability_cases in Hv as [-> Hv].
  assert (Hquiet : ∀ ids cmd comment,
            EvSendCommand ids cmd comment ∉ [EvDescribeInstanceInformation]).
  { intros ? ? ? [=]%list_elem_of_singleton. }
  destruct rv as [[available unavailable]|e];
    [| exists [EvDescribeInstanceInformation]; split; [done | by left]].
  destruct available as [|i available];
    [exists [EvDescribeInstanceInformation]; split; [done | by left] |].
  destruct (Hv _ _ eq_refl) as [[[=] _]|(pages & Hpages & Hnd & Havail & Hunavail)].
  case_decide as Hproceed;
    [exists [EvDescribeInstanceInformation]; split; [done | by left] |].
  match goal with |- context [change_and_report ?s ?l ?u ?p ?cp ?cf ?ids ?w0] =>
    destruct (change_and_report s l u p cp cf ids w0) as [r w'] eqn:Hc end.
  apply change_and_report_trace in Hc as [->|(Hp & Hcf & _ & rest & Ht & Hrest)];
    [exists [EvDescribeInstanceInformation]; split; [done | by left] |].
  exists (EvDescribeInstanceInformation
          :: EvSendCommand (i :: available)
               (chpasswd_command (updates_pass_ip.username a)
                  (updates_pass_ip.new_password a))
               ("Update password for user " +:+ updates_pass_ip.username a)
          :: rest).
  split; [cbn [snd]; rewrite Ht; cbn; by rewrite <- app_assoc |].
  right. exists selected, display_info, pages, (i :: available), rest.
  split_and!; try done.
  destruct (decide (unavailable = [])) as [Hnone|Hsome].
  - left. intros j Hj. destruct (decide (j ∈ i :: available)) as [|Hn]; [done |].
    assert (j ∈ unavailable) as Hin
      by (rewrite Hunavail; by apply list_elem_of_filter).
    rewrite Hnone in Hin. by apply elem_of_nil in Hin.
  - right. apply lower_is_y.
    destruct (decide (lower (updates_pass_ip.proceed a) = "y")) as [|Hn]; [done |].
    destruct Hproceed. by split.
Qed.

(** ** The SSH script, from [main] *)

Section ssh_main_facts.
Context {Net : Type} (client : password_update.ssh_client Net).

(** The loop of [main]: one result per server, and the first call made is the
    connection to the first server. *)
Lemma update_servers_spec port u pw target new_pw : ∀ servers results0 w,
  ∃ results w',
    password_update.update_servers client servers port u pw target new_pw results0 w
      = (Ok (results0 ++ results), w') ∧
    (λ r, r.1.1) <$> results = servers ∧
    match servers with
    | [] => w' = w
    | hostname :: _ =>
        ∃ rest, password_update.trace w'
                = password_update.trace w
                  ++ password_update.EvConnect hostname port u :: rest
    end.
Proof.
  induction servers as [|hostname servers IH]; intros results0 w.
  - exists [], w. by rewrite app_nil_r.
  - cbn [password_update.update_servers]. unfold password_update.bind.
    destruct (update_password_returns client hostname port u pw target new_pw w)
      as (success & message & between & n & -> & _ & _).
    cbn.
    destruct (IH (results0 ++ [(hostname, success, message)])
                {| password_update.net := password_update.close client n;
                   password_update.trace :=
                     (password_update.trace w
                      ++ password_update.EvConnect hostname port u :: between
                      ++ [password_update.EvClose hostname])
                     ++ [password_update.EvSleep 1] |})
      as (results & w' & -> & Hnames & Htrace).
    exists ((hostname, success, message) :: results), w'. split_and!.
    + by rewrite <- app_assoc.
    + cbn. by rewrite Hnames.
    + destruct servers as [|next servers].
      * subst w'. cbn. eexists. by rewrite <- app_assoc.
      * destruct Htrace as [rest ->]. cbn. eexists.
        rewrite <- !app_assoc. cbn. reflexivity.
Qed.

(** The summary of results that has one result per server. *)
Lemma ssh_summary_counts (servers : list string)
    (results : list (string * bool * string)) :
  (λ r, r.1.1) <$> results = servers →
  let s := password_update.summarize servers results in
  (Z.of_nat (password_update.success_count s) + password_update.failed s
   = Z.of_nat (password_update.total s))%Z ∧
  password_update.failed s = Z.of_nat (length (password_update.errors s)) ∧
  (password_update.errors s).*1 `sublist_of` servers ∧
  (∀ hostname message,
     (hostname, message) ∈ password_update.errors s ↔
     (hostname, false, message) ∈ results).
Proof.
  intros Hnames s.
  assert (Hlen : length results = length servers)
    by (by rewrite <- Hnames, length_fmap).
  pose proof (filter_app_complement (λ r : string * bool * string, r.1.2 = true)
                results) as Hp.
  apply Permutation_length in Hp. rewrite length_app in Hp.
  assert (Hfalse : filter (λ r : string * bool * string, ¬ r.1.2 = true) results
                   = filter (λ r, r.1.2 = false) results).
  { apply list_filter_iff. intros [[h b] m]; cbn. by destruct b. }
  rewrite Hfalse in Hp.
  assert (Hmem : ∀ hostname message,
            (hostname, message)
            ∈ (λ r : string * bool * string, (r.1.1, r.2))
                <$> filter (λ r, r.1.2 = false) results
            ↔ (hostname, false, message) ∈ results).
  { intros hostname message. rewrite list_elem_of_fmap. split.
    - intros ([[h b] m] & [= -> ->] & [Hb Hin]%list_elem_of_filter).
      cbn in Hb. by subst b.
    - intros Hin. exists (hostname, false, message). split; [done |].
      by apply list_elem_of_filter. }
  subst s. cbn. split_and!; [lia | | |].
  - case_decide; [rewrite length_fmap; lia | cbn; lia].
  - case_decide; [| apply sublist_nil_l].
    rewrite <- Hnames, <- list_fmap_compose.
    change ((fst ∘ λ r : string * bool * string, (r.1.1, r.2)) <$>
              filter (λ r, r.1.2 = false) results)
      with ((λ r : string * bool * string, r.1.1) <$>
              filter (λ r, r.1.2 = false) results).
    apply fmap_sublist, sublist_filter.
  - intros hostname message. case_decide as Hf; [done |].
    assert (Hnil : filter (λ r : string * bool * string, r.1.2 = false) results = []).
    { apply length_zero_iff_nil. lia. }
    rewrite <- Hmem, Hnil. done.
Qed.

End ssh_main_facts.

(** X12.  When [main] of the SSH script prints its summary, the total is the
    number of servers read from the file, successes and failures add up to
    it, and the servers listed with errors are exactly [failed] many, each a
    server of the file, in the order of the file. *)
Theorem ssh_summary_accounts_for_every_server {Net}
    (client : password_update.ssh_client Net) servers_txt a w s w' :
  password_update.main client servers_txt a w = (Ok (Returned s), w') →
  ∃ lines,
    servers_txt = Some lines ∧
    password_update.total s = length (stripped_nonempty lines) ∧
    0 < password_update.total s ∧
    (Z.of_nat (password_update.success_count s) + password_update.failed s
     = Z.of_nat (password_update.total s))%Z ∧
    password_update.failed s = Z.of_nat (length (password_update.errors s)) ∧
    (password_update.errors s).*1 `sublist_of` stripped_nonempty lines.
Proof.
  unfold password_update.main.
  destruct servers_txt as [lines|]; [| done].
  destruct (stripped_nonempty lines) as [|hostname servers] eqn:Hservers; [done |].
  case_decide; [done |].
  destruct (password_update.ssh_port a) as [port|]; [| done].
  case_decide; [done |].
  unfold password_update.bind.
  destruct (update_servers_spec client port (password_update.ssh_username a)
              (password_update.ssh_password a) (password_update.target_username a)
              (password_update.new_password a) (hostname :: servers) [] w)
    as (results & w1 & -> & Hnames & _).
  cbn. intros [= <- <-].
  destruct (ssh_summary_counts (hostname :: servers) results Hnames)
    as (Hsum & Hfailed & Hsub & _).
  exists lines. rewrite Hservers. split_and!; try done; cbn; lia.
Qed.

Lemma ssh_summary_accounts_for_every_server_witness :
  let client : password_update.ssh_client unit :=
    {| password_update.connect := λ hostname _ _ _ n,
         (if decide (hostname = "db") then Raise (OtherException "timed out")
          else Ok (), n);
       password_update.exec_command := λ _ n, (Ok (), n);
       password_update.recv_exit_status := λ n, (Ok 0%Z, n);
       password_update.read_stderr := λ n, (Ok "", n);
       password_update.close := λ n, n |} in
  let a := {| password_update.ssh_username := "admin";
              password_update.ssh_password := "pw";
              password_update.target_username := "alice";
              password_update.new_password := "secret";
              password_update.confirm_password := "secret";
              password_update.ssh_port := Some 22%Z;
              password_update.confirm := "Y" |} in
  let out := password_update.main client (Some ["web"; " db "; ""]) a
               {| password_update.net := (); password_update.trace := [] |} in
  ∃ s, out.1 = Ok (Returned s) ∧
    ∃ lines,
      Some ["web"; " db "; ""] = Some lines ∧
      password_update.total s = length (stripped_nonempty lines) ∧
      0 < password_update.total s ∧
      (Z.of_nat (password_update.success_count s) + password_update.failed s
       = Z.of_nat (password_update.total s))%Z ∧
      password_update.failed s = Z.of_nat (length (password_update.errors s)) ∧
      (password_update.errors s).*1 `sublist_of` stripped_nonempty lines.
Proof.
  intros client a out.
  destruct out.1 as [[s|code]|e] eqn:Hout;
    [| by vm_compute in Hout | by vm_compute in Hout].
  exists s. split; [done |].
  apply (ssh_summary_accounts_for_every_server client (Some ["web"; " db "; ""]) a
           {| password_update.net := (); password_update.trace := [] |} s out.2).
  rewrite <- Hout. apply surjective_pairing.
Defined.

(** X13.  [main] of the SSH script connects to no server unless the file
    names one, the two passwords typed are equal, the port is a number and the
    confirmation is "y" or "Y": otherwise it leaves the network as it found
    it.  When it goes ahead, its first call is the connection to the first
    server of the file. *)
Theorem ssh_main_connects_only_when_confirmed {Net}
    (client : password_update.ssh_client Net) servers_txt a w :
  let out := password_update.main client servers_txt a w in
  out.2 = w ∨
  (∃ lines hostname servers port rest,
     servers_txt = Some lines ∧
     stripped_nonempty lines = hostname :: servers ∧
     password_update.new_password a = password_update.confirm_password a ∧
     password_update.ssh_port a = Some port ∧
     (password_update.confirm a = "y" ∨ password_update.confirm a = "Y") ∧
     password_update.trace out.2
       = password_update.trace w
         ++ password_update.EvConnect hostname port (password_update.ssh_username a)
         :: rest).
Proof.
  intros out. subst out. unfold password_update.main.
  destruct servers_txt as [lines|]; [| by left].
  destruct (stripped_nonempty lines) as [|hostname servers] eqn:Hservers; [by left |].
  destruct (decide (password_update.new_password a ≠ password_update.confirm_password a))
    as [|Heq%dec_stable]; [by left |].
  destruct (password_update.ssh_port a) as [port|] eqn:Hport; [| by left].
  destruct (decide (lower (password_update.confirm a) ≠ "y")) as [|Hy%dec_stable];
    [by left |].
  apply lower_is_y in Hy. right.
  unfold password_update.bind.
  destruct (update_servers_spec client port (password_update.ssh_username a)
              (password_update.ssh_password a) (password_update.target_username a)
              (password_update.new_password a) (hostname :: servers) [] w)
    as (results & w1 & -> & _ & rest & Ht).
  cbn. by exists lines, hostname, servers, port, rest.
Qed.


(** ** Reading ids and addresses typed on one line *)

Section typed_lists.

#[local] Abbreviation chars := Stdlib.Strings.String.list_ascii_of_string.

#[local] Abbreviation starts_clean s :=
  (match s with
   | EmptyString => True
   | String c _ => is_space c = false
   end).









End typed_lists.



(** ** Who is asked in a round *)

Section round_queries.
Context {Chan : Type} (ssm : ssm_client Chan).

Lemma for_instances_queries cid ids : ∀ results all_complete w results' all_complete' w',
  NoDup ids →
  for_instances ssm cid ids (results, all_complete) w
    = (Ok (results', all_complete'), w') →
  trace w' = trace w
             ++ (EvGetCommandInvocation cid
                   <$> filter (λ i, still_active results i = true) ids).
Proof.
  induction ids as [|i rest IH]; intros results ac w results' ac' w' Hnd H.
  - injection H as _ _ <-. by rewrite app_nil_r.
  - apply NoDup_cons in Hnd as [Hi Hnd].
    change (bind (poll_instance ssm cid i (results, ac))
                 (for_instances ssm cid rest) w = (Ok (results', ac'), w')) in H.
    unfold bind in H.
    destruct (poll_instance ssm cid i (results, ac) w) as [r1 w1] eqn:H1.
    pose proof H1 as Hstep.
    apply poll_instance_step in Hstep as (_ & _ & _ & _ & Hok).
    destruct r1 as [[results1 ac1]|e]; [| done].
    destruct (Hok _ _ eq_refl) as (_ & Hframe & _).
    apply IH in H; [| done]. rewrite H.
    rewrite (filter_ext_elem (λ j, still_active results1 j = true)
               (λ j, still_active results j = true) rest).
    2: { intros j Hj. rewrite (still_active_ext results1 results j); [done |].
         apply Hframe. by intros ->. }
    apply poll_instance_spec in H1
      as [(_ & [=] & _) | [(e & He & Hq & _ & ->) | (e & a & c & He & Hq & _ & -> & _)]].
    + rewrite filter_cons_False; [done |].
      unfold still_active. rewrite He, Hq. done.
    + rewrite filter_cons_True by (unfold still_active; by rewrite He).
      cbn. by rewrite <- app_assoc.
Qed.

End round_queries.

(** X16.  In a round over distinct instances that is not cut short by an
    exception, the instances asked about are exactly those whose status was
    Pending or InProgress when the round began, each once, in the order of
    the list: no unfinished instance is skipped, no finished one is asked
    again. *)
Theorem round_asks_every_unfinished_instance {Chan} (ssm : ssm_client Chan)
    cid ids results w results' all_complete' w' :
  NoDup ids →
  poll_round ssm cid ids results w = (Ok (results', all_complete'), w') →
  trace w' = trace w
             ++ round_events cid (filter (λ i, still_active results i = true) ids).
Proof.
  intros Hnd H. unfold poll_round, bind, sleep in H. cbn in H.
  apply for_instances_queries in H; [| done].
  rewrite H. cbn. by rewrite <- app_assoc.
Qed.

Lemma round_asks_every_unfinished_instance_witness :
  let out := poll_round never_done "cmd-1" ["i-1"; "i-2"] one_done start in
  NoDup ["i-1"; "i-2"] ∧
  trace out.2 = trace start ++ round_events "cmd-1" ["i-2"].
Proof.
  intros out.
  assert (Hnd : NoDup ["i-1"; "i-2"]).
  { apply NoDup_cons. split; [| apply NoDup_singleton].
    by intros [=]%list_elem_of_singleton. }
  split; [exact Hnd |].
  destruct out.1 as [[results' ac']|e] eqn:Hout; [| by vm_compute in Hout].
  apply (round_asks_every_unfinished_instance never_done "cmd-1" ["i-1"; "i-2"]
           one_done start results' ac' out.2 Hnd).
  rewrite <- Hout. apply surjective_pairing.
Defined.
